(** * Mapxpress data extractor: the extraction-and-merge pipeline of [src/App.tsx]

    A shallow embedding of the React component [App]: the response parser
    ([text.split("\n").map(row => row.split(","))]), the accumulator
    ([setAllExtracted] updaters of [handleExtract] and [handleEditCell]), the
    retrying transport (the [while (retries < maxRetries)] loop), the batch
    loop of [handleExtract] and the CSV export of [handleDownloadCSV].

    Strings are sequences of code units below 256 ([Ascii.ascii]); arrays are
    lists, read with stdpp's [!!] and written with [<[_:=_]>]. *)

From Stdlib Require Import ZArith Lia Ascii String DecimalString.
From stdpp Require Import base list strings.

Local Open Scope string_scope.

(** ** Strings: [split], [join], [trim] *)

Module Str.

(** [s.split(sep)] for a one-character separator. The result is never
    empty: the empty string splits into one empty part. *)
Fixpoint split (sep : ascii) (s : string) : list string :=
  match s with
  | EmptyString => [EmptyString]
  | String c s' =>
      if Ascii.eqb c sep then EmptyString :: split sep s'
      else match split sep s' with
           | [] => [String c EmptyString]
           | w :: ws => String c w :: ws
           end
  end.

(** [parts.join(sep)]. *)
Fixpoint join (sep : string) (parts : list string) : string :=
  match parts with
  | [] => EmptyString
  | [p] => p
  | p :: ps => p +:+ sep +:+ join sep ps
  end.

(** White space and line terminators that [trim] strips, among the code
    units below 256: TAB, LF, VT, FF, CR, SP and NBSP. *)
Definition is_space (c : ascii) : bool :=
  let n := nat_of_ascii c in
  ((n =? 9) || (n =? 10) || (n =? 11) || (n =? 12) || (n =? 13)
   || (n =? 32) || (n =? 160))%nat.

Fixpoint trim_start (s : string) : string :=
  match s with
  | EmptyString => EmptyString
  | String c s' => if is_space c then trim_start s' else s
  end.

(** Drops trailing white space: a character is kept when something
    non-blank follows or when it is itself non-blank. *)
Fixpoint trim_end (s : string) : string :=
  match s with
  | EmptyString => EmptyString
  | String c s' =>
      match trim_end s' with
      | EmptyString => if is_space c then EmptyString else String c EmptyString
      | t => String c t
      end
  end.

Definition trim (s : string) : string := trim_end (trim_start s).

End Str.

Definition LF : ascii := Ascii.ascii_of_nat 10.
Definition COMMA : ascii := Ascii.ascii_of_nat 44.

(** ** Data model *)

(** A row is [string[]], the dataset [allExtracted] is [string[][]]. *)
Abbreviation Row := (list string).
Abbreviation Dataset := (list (list string)).

(** The [headers] constant of the component. *)
Definition headers : Row :=
  [ "Order Number"; "Recipient's Name"; "Phone Number"; "Standby Phone";
    "State"; "City"; "Recipient Street" ].

(** ** Response parser

    [text.split("\n").map((row) => row.split(","))] *)
Definition parse (text : string) : Dataset :=
  Str.split COMMA <$> Str.split LF text.

(** ** Accumulator *)

(** [rows.slice(1)]. *)
Definition slice1 {A} (l : list A) : list A := drop 1 l.

(** The updater handed to [setAllExtracted] in [handleExtract]:
    [prev.length === 0 ? rows : [...prev, ...rows.slice(1)]]. *)
Definition merge (rows prev : Dataset) : Dataset :=
  if (length prev =? 0)%nat then rows else (prev ++ slice1 rows)%list.

(** What the updater of [handleEditCell] does. *)
Inductive EditResult :=
| Edited (updated : Dataset)
    (** the addressed row exists and [colIdx <= row.length]: the cell is
        written (at [colIdx = row.length] the row grows by one cell) *)
| EditSparse
    (** [colIdx > row.length]: the assignment grows the row to
        [colIdx + 1] cells and leaves holes that read [undefined], which no
        [string[][]] value holds *)
| EditTypeError.
    (** [rowIdx >= prev.length]: [updated[rowIdx]] is [undefined] and
        spreading it throws a TypeError *)

(** [updated = [...prev]; updated[rowIdx] = [...updated[rowIdx]];
     updated[rowIdx][colIdx] = value; return updated] *)
Definition editCell (rowIdx colIdx : nat) (value : string) (prev : Dataset)
  : EditResult :=
  match prev !! rowIdx with
  | None => EditTypeError
  | Some row =>
      if (colIdx <? length row)%nat then
        Edited (<[rowIdx := <[colIdx := value]> row]> prev)
      else if (colIdx =? length row)%nat then
        Edited (<[rowIdx := (row ++ [value])%list]> prev)
      else EditSparse
  end.

(** The cell at [(r, c)], when it exists. *)
Definition cell (ds : Dataset) (r c : nat) : option string :=
  ds !! r ≫= (.!! c).

(** ** Component state and the world around it *)

(** A selected image; the request body is determined by it. *)
Record File := { file_name : string; file_type : string }.

(** The [useState] cells of [App]. *)
Record AppState := {
  imageFiles : list File;
  extractedData : string;
  loading : bool;
  error : string;
  allExtracted : Dataset;
}.

(** [result.candidates[0].content.parts[0].text], every step optional. *)
Record Part := { text : option string }.
Record Content := { parts : option (list Part) }.
Record Candidate := { content : option Content }.
Record GenerateResult := { candidates : option (list Candidate) }.

(** A settled [fetch]: the status line and what [json()] yields ([None]
    when the body is not JSON and [json()] rejects). *)
Record Response := { status : Z; body : option GenerateResult }.

(** [apiResponse.ok]: the status is in the range 200-299. *)
Definition ok (r : Response) : bool :=
  ((200 <=? status r) && (status r <=? 299))%Z.

(** The exceptions that occur in [handleExtract]. *)
Inductive JsError :=
| StatusError (st : Z)        (** [new Error(`API call failed with status: ${status}`)] *)
| RetriesError                (** [new Error("API call failed after multiple retries.")] *)
| FetchFailure (msg : string) (** the rejection of [fetch] itself *)
| BodyError                   (** the rejection of [apiResponse.json()] *)
| UndefinedText.              (** [parts[0].text] is [undefined]: [.trim()] throws *)

Definition decimal (z : Z) : string := NilZero.string_of_int (Z.to_int z).

(** [err.message]. *)
Definition message (e : JsError) : string :=
  match e with
  | StatusError st => "API call failed with status: " +:+ decimal st
  | RetriesError => "API call failed after multiple retries."
  | FetchFailure msg => msg
  | BodyError => "Unexpected end of JSON input"                           (* V8's wording *)
  | UndefinedText => "Cannot read properties of undefined (reading 'trim')" (* V8's wording *)
  end.

(** How one [fetch] call settles. *)
Inductive FetchOutcome :=
| Resolved (r : Response)
| Rejected (msg : string).

(** What the component does to the outside, in order. *)
Inductive Event :=
| EvFetch (image : File)   (** a POST to the inference service carrying [image] *)
| EvWait (ms : Z).         (** [setTimeout(resolve, ms)] awaited *)

(** The component state, the number of [fetch] calls made so far and the
    trace of events. *)
Record World := { app : AppState; calls : nat; log : list Event }.

(** ** A monad for [async] code: state, exceptions, promises that never settle *)

Inductive Outcome (A : Type) : Type :=
| Done (a : A)          (** ran to completion *)
| Throw (e : JsError)   (** an exception, or the rejection of the awaited promise *)
| Pending               (** suspended on a promise that is never settled *)
| OutOfFuel.            (** the bound of the loop unrolling was reached (never, see [retry_loop_fuel]) *)
Arguments Done {A} a.
Arguments Throw {A} e.
Arguments Pending {A}.
Arguments OutOfFuel {A}.

Definition M (A : Type) : Type := World -> Outcome A * World.

Definition ret {A} (a : A) : M A := fun w => (Done a, w).

Definition bind {A B} (m : M A) (k : A -> M B) : M B :=
  fun w =>
    match m w with
    | (Done a, w') => k a w'
    | (Throw e, w') => (Throw e, w')
    | (Pending, w') => (Pending, w')
    | (OutOfFuel, w') => (OutOfFuel, w')
    end.

Definition throw {A} (e : JsError) : M A := fun w => (Throw e, w).

(** [try { body } catch (e) { handler e }] *)
Definition try_catch {A} (body : M A) (handler : JsError -> M A) : M A :=
  fun w =>
    match body w with
    | (Throw e, w') => handler e w'
    | r => r
    end.

Notation "x <- m ;; k" := (bind m (fun x => k))
  (at level 100, m at next level, right associativity).
Notation "m ;; k" := (bind m (fun _ => k))
  (at level 100, right associativity).

Definition modify_app (f : AppState -> AppState) : M unit :=
  fun w => (Done tt, {| app := f (app w); calls := calls w; log := log w |}).

Definition emit (ev : Event) : M unit :=
  fun w => (Done tt, {| app := app w; calls := calls w; log := (log w ++ [ev])%list |}).

(** The state setters. *)
Definition with_extractedData (v : string) (s : AppState) : AppState :=
  {| imageFiles := imageFiles s; extractedData := v; loading := loading s;
     error := error s; allExtracted := allExtracted s |}.
Definition with_loading (v : bool) (s : AppState) : AppState :=
  {| imageFiles := imageFiles s; extractedData := extractedData s; loading := v;
     error := error s; allExtracted := allExtracted s |}.
Definition with_error (v : string) (s : AppState) : AppState :=
  {| imageFiles := imageFiles s; extractedData := extractedData s;
     loading := loading s; error := v; allExtracted := allExtracted s |}.
Definition update_allExtracted (f : Dataset -> Dataset) (s : AppState) : AppState :=
  {| imageFiles := imageFiles s; extractedData := extractedData s;
     loading := loading s; error := error s; allExtracted := f (allExtracted s) |}.

Definition setExtractedData (v : string) : M unit := modify_app (with_extractedData v).
Definition setLoading (v : bool) : M unit := modify_app (with_loading v).
Definition setError (v : string) : M unit := modify_app (with_error v).
Definition setAllExtracted (f : Dataset -> Dataset) : M unit :=
  modify_app (update_allExtracted f).

(** [await new Promise((resolve) => setTimeout(resolve, delay))] *)
Definition sleep (ms : Z) : M unit := emit (EvWait ms).

(** ** Retrying transport *)

Definition maxRetries : nat := 5.
Definition initialDelay : Z := 1000.

(** [initialDelay * Math.pow(2, retries)] *)
Definition backoff (retries : nat) : Z := (initialDelay * 2 ^ Z.of_nat retries)%Z.

Section Pipeline.

(** The network: how the n-th [fetch] call of the session settles. *)
Variable net : nat -> FetchOutcome.

(** [await fetch(apiUrl, ...)], with the settlement handed back as a value. *)
Definition fetch (image : File) : M FetchOutcome :=
  fun w =>
    (Done (net (calls w)),
     {| app := app w; calls := S (calls w); log := (log w ++ [EvFetch image])%list |}).

(** The [while (retries < maxRetries)] loop with its [try]/[catch]. The
    locals [retries] and [apiResponse] are arguments; [fuel] bounds the
    unrolling. *)
Fixpoint retry_loop (fuel : nat) (image : File) (retries : nat)
    (apiResponse : option Response) : M (option Response) :=
  if (retries <? maxRetries)%nat then
    match fuel with
    | O => fun w => (OutOfFuel, w)
    | S fuel' =>
        let next := retry_loop fuel' image (S retries) in
        (* catch (e) { ... }: [resp] is the value of apiResponse on entry *)
        let catch (e : JsError) (resp : option Response) : M (option Response) :=
          if (retries <? maxRetries - 1)%nat
          then sleep (backoff retries) ;; next resp
          else throw e in
        o <- fetch image ;;
        match o with
        | Rejected msg => catch (FetchFailure msg) apiResponse
        | Resolved r =>
            (* apiResponse = r *)
            if ok r then ret (Some r)                       (* break *)
            else if (status r =? 429)%Z
                 then sleep (backoff retries) ;; next (Some r)
                 else catch (StatusError (status r)) (Some r) (* throw inside try *)
        end
    end
  else ret apiResponse.

(** The loop followed by
    [if (!apiResponse || !apiResponse.ok) throw new Error(...)]. *)
Definition send (image : File) : M Response :=
  apiResponse <- retry_loop maxRetries image 0 None ;;
  match apiResponse with
  | Some r => if ok r then ret r else throw RetriesError
  | None => throw RetriesError
  end.

(** [await apiResponse.json()] *)
Definition json (r : Response) : M GenerateResult :=
  match body r with
  | Some result => ret result
  | None => throw BodyError
  end.

(** The guard
    [result.candidates && result.candidates.length > 0 &&
     result.candidates[0].content && result.candidates[0].content.parts &&
     result.candidates[0].content.parts.length > 0];
    when it holds, [result.candidates[0].content.parts[0]]. *)
Definition usable (result : GenerateResult) : option Part :=
  match candidates result with
  | Some (c0 :: _) =>
      match content c0 with
      | Some ct =>
          match parts ct with
          | Some (p0 :: _) => Some p0
          | _ => None
          end
      | None => None
      end
  | _ => None
  end.

(** The body of [reader.onloadend = async () => { ... }] from the request
    on; its last statement is [resolveReader()]. *)
Definition onloadend (image : File) : M unit :=
  apiResponse <- send image ;;
  result <- json apiResponse ;;
  match usable result with
  | Some p0 =>
      match text p0 with
      | None => throw UndefinedText
      | Some raw =>
          let text := Str.trim raw in
          setExtractedData text ;;
          let rows := parse text in
          setAllExtracted (merge rows)
      end
  | None => setError "Could not extract data. Please try another image."
  end.

(** [await new Promise<void>((resolveReader) => { reader.onloadend = cb })]:
    the promise is settled only by the [resolveReader()] that ends [cb]. An
    exception inside the [async] callback rejects the callback's own
    promise, which nobody holds; the awaited promise then stays pending. *)
Definition await_reader (cb : M unit) : M unit :=
  fun w =>
    match cb w with
    | (Throw _, w') => (Pending, w')
    | r => r
    end.

(** [for (const imageFile of imageFiles) { ... }] *)
Fixpoint for_images (files : list File) : M unit :=
  match files with
  | [] => ret tt
  | imageFile :: rest => await_reader (onloadend imageFile) ;; for_images rest
  end.

(** [catch (err: any) { setError(`An error occurred: ${err.message}`); }] *)
Definition on_error (err : JsError) : M unit :=
  setError ("An error occurred: " +:+ message err).

Definition handleExtract : M unit :=
  setExtractedData EmptyString ;;
  setError EmptyString ;;
  fun w =>
    let files := imageFiles (app w) in
    (if (length files =? 0)%nat then
       setError "Please select or capture at least one image first."
     else
       setLoading true ;;
       try_catch (for_images files) on_error ;;
       setLoading false) w.

End Pipeline.

(** ** Handlers outside the batch *)

(** [handleEditCell]: the new state when the updater returns an array of
    strings. *)
Definition handleEditCell (rowIdx colIdx : nat) (value : string) (s : AppState)
  : option AppState :=
  match editCell rowIdx colIdx value (allExtracted s) with
  | Edited updated => Some (update_allExtracted (fun _ => updated) s)
  | _ => None
  end.

(** The file offered by [handleDownloadCSV]. *)
Record Download := { download_name : string; mime : string; csvContent : string }.

Definition handleDownloadCSV (s : AppState) : AppState * option Download :=
  if (length (allExtracted s) =? 0)%nat then
    (with_error "No data to download." s, None)
  else
    (s, Some {| download_name := "extracted_data.csv";
                mime := "text/csv;charset=utf-8;";
                csvContent :=
                  Str.join (String LF EmptyString)
                    (Str.join "," headers :: (Str.join "," <$> allExtracted s)) |}).

(** The world after one more [fetch] carrying [image], followed by the
    events [evs]. *)
Definition attempted (image : File) (evs : list Event) (w : World) : World :=
  {| app := app w; calls := S (calls w);
     log := (log w ++ EvFetch image :: evs)%list |}.

(** The world with the component state replaced. *)
Definition with_app (s : AppState) (w : World) : World :=
  {| app := s; calls := calls w; log := log w |}.

(** A network in which the faults among the first four [fetch] calls from
    call number [from] on are replaced by throttling responses. *)
Definition as_throttled (o : FetchOutcome) : FetchOutcome :=
  match o with
  | Rejected _ => Resolved {| status := 429; body := None |}
  | Resolved r => Resolved r
  end.

Definition throttling_for_faults (from : nat) (net : nat -> FetchOutcome)
  : nat -> FetchOutcome :=
  fun n => if (n <? from + (maxRetries - 1))%nat then as_throttled (net n) else net n.

(** What the events of a transport run for [image] look like: requests
    carrying the image, and waits. *)
Definition transport_event (image : File) (ev : Event) : Prop :=
  ev = EvFetch image \/ exists d, ev = EvWait d.

(** ** Sample data for the scenarios *)

Definition label1 : File := {| file_name := "label1.png"; file_type := "image/png" |}.
Definition label2 : File := {| file_name := "label2.png"; file_type := "image/png" |}.

(** A 200 answer whose first candidate holds [raw] as its text. *)
Definition success (raw : string) : FetchOutcome :=
  Resolved {| status := 200;
              body := Some {| candidates :=
                Some [ {| content := Some {| parts := Some [ {| text := Some raw |} ] |} |} ] |} |}.

(** A 200 answer without candidates. *)
Definition no_candidates : FetchOutcome :=
  Resolved {| status := 200; body := Some {| candidates := None |} |}.

(** An answer with status [st] and no JSON body. *)
Definition failure (st : Z) : FetchOutcome :=
  Resolved {| status := st; body := None |}.

(** A session that has selected [files] and extracted nothing yet. *)
Definition fresh (files : list File) : World :=
  {| app := {| imageFiles := files; extractedData := EmptyString; loading := false;
               error := EmptyString; allExtracted := [] |};
     calls := 0; log := [] |}.

(** The world in which the batch loop of [handleExtract] starts: after
    [setExtractedData("")], [setError("")] and [setLoading(true)]. *)
Definition started (w : World) : World :=
  with_app (with_loading true
              (with_error EmptyString (with_extractedData EmptyString (app w)))) w.

(** The message recorded for an image whose answer has no usable content. *)
Definition could_not_extract : string :=
  "Could not extract data. Please try another image.".


(** The two answers of the two-image scenario. *)
Definition answer_AB : string := "H1,H2
A,B".
Definition answer_CD : string := "H1,H2
C,D".

(** Sample networks, by call number. *)
Definition net_two_answers (n : nat) : FetchOutcome :=
  match n with 0 => success answer_AB | _ => success answer_CD end.
Definition net_500_then_answer (n : nat) : FetchOutcome :=
  match n with 0 => failure 500 | _ => success answer_AB end.
Definition net_empty_then_answer (n : nat) : FetchOutcome :=
  match n with 0 => no_candidates | _ => success answer_CD end.
Definition net_answer_then_throttled (n : nat) : FetchOutcome :=
  match n with 0 => success answer_AB | _ => failure 429 end.
Definition net_mixed_then_answer (n : nat) : FetchOutcome :=
  match n with
  | 0 => failure 500
  | 1 => Rejected "Failed to fetch"
  | 2 => failure 429
  | _ => success answer_AB
  end.
Definition net_always (o : FetchOutcome) (n : nat) : FetchOutcome := o.


(** ** Sequences of accumulator operations *)

Inductive Op :=
| OpMerge (rows : Dataset)
| OpEdit (rowIdx colIdx : nat) (value : string).

(** Runs the operations in order; [None] when an edit does not yield an
    array of strings. *)
Fixpoint run (ops : list Op) (ds : Dataset) : option Dataset :=
  match ops with
  | [] => Some ds
  | OpMerge rows :: ops' => run ops' (merge rows ds)
  | OpEdit r c v :: ops' =>
      match editCell r c v ds with
      | Edited ds' => run ops' ds'
      | _ => None
      end
  end.




(** Two well-formed answers as rows, and a session of operations on them. *)
Definition row_A : Row := ["1001"; "Ada"; "0801"; "N/A"; "Lagos"; "Ikeja"; "1 Allen Ave"].
Definition row_B : Row := ["1002"; "Bola"; "0802"; "N/A"; "Oyo"; "Ibadan"; "2 Ring Rd"].

(** A state whose dataset is [ds]. *)
Definition holding (ds : Dataset) : AppState :=
  {| imageFiles := []; extractedData := EmptyString; loading := false;
     error := EmptyString; allExtracted := ds |}.

(** ** The rest of the component *)

(** Whether the character [c] occurs in [s], and how often. *)
Fixpoint has_char (c : ascii) (s : string) : bool :=
  match s with
  | EmptyString => false
  | String c' s' => Ascii.eqb c' c || has_char c s'
  end.

Fixpoint count_char (c : ascii) (s : string) : nat :=
  match s with
  | EmptyString => 0
  | String c' s' => (if Ascii.eqb c' c then 1 else 0) + count_char c s'
  end.

(** A cell that survives export and parsing: no comma, no line feed. *)
Definition plain_cell (s : string) : bool :=
  negb (has_char COMMA s) && negb (has_char LF s).

(** The first and the last character of a string. *)
Definition first_char (s : string) : option ascii :=
  match s with
  | EmptyString => None
  | String c _ => Some c
  end.

Fixpoint last_char (s : string) : option ascii :=
  match s with
  | EmptyString => None
  | String c s' =>
      match last_char s' with
      | None => Some c
      | Some d => Some d
      end
  end.

(** A row as the parser or a well-formed edit leaves it: at least one
    cell, and only plain cells. *)
Definition plain_row (row : Row) : Prop :=
  row <> [] /\ Forall (fun c => plain_cell c = true) row.

(** Successive merges, in order: the dataset after the answers [seqs]. *)
Definition merge_all (seqs : list Dataset) (ds : Dataset) : Dataset :=
  foldl (fun acc rows => merge rows acc) ds seqs.



(** The two file inputs; [files] is [e.target.files], [None] when null.
    Upload: [setImageFiles(Array.from(e.target.files || []))].
    Capture: [setImageFiles((prev) => [...prev, ...(e.target.files ? Array.from(e.target.files) : [])])]. *)
Definition with_imageFiles (v : list File) (s : AppState) : AppState :=
  {| imageFiles := v; extractedData := extractedData s; loading := loading s;
     error := error s; allExtracted := allExtracted s |}.

Definition onUpload (files : option (list File)) (s : AppState) : AppState :=
  with_imageFiles (default [] files) s.

Definition onCapture (files : option (list File)) (s : AppState) : AppState :=
  with_imageFiles (imageFiles s ++ default [] files)%list s.

Inductive Pick :=
| Upload (files : option (list File))
| Capture (files : option (list File)).

Definition pick (s : AppState) (p : Pick) : AppState :=
  match p with
  | Upload files => onUpload files s
  | Capture files => onCapture files s
  end.


Definition resultsVisible (s : AppState) : bool :=
  (0 <? length (allExtracted s))%nat.

Record Input := { shown : string; at_row : nat; at_col : nat }.

Definition renderedInputs (s : AppState) : list (list Input) :=
  if resultsVisible s then
    imap (fun rowIdx row =>
            imap (fun colIdx cell =>
                    {| shown := Str.trim cell; at_row := rowIdx; at_col := colIdx |})
                 row)
         (allExtracted s)
  else [].

(** ** Vocabulary for the transport and the batch *)

(** An attempt that does not end the loop with a response: a status
    outside 200-299, or a rejected [fetch]. *)
Definition failed (o : FetchOutcome) : bool :=
  match o with
  | Resolved r => negb (ok r)
  | Rejected _ => true
  end.

(** The events of [k] failed attempts in a row, the first of them made
    with [retries = j]. *)
Fixpoint attempts_log (image : File) (j k : nat) : list Event :=
  match k with
  | O => []
  | S k' => EvFetch image :: EvWait (backoff j) :: attempts_log image (S j) k'
  end.

(** What a failed fifth attempt leaves: the exception, and the wait that
    precedes it when the answer was a 429. *)
Definition final_error (o : FetchOutcome) : JsError :=
  match o with
  | Resolved r => if (status r =? 429)%Z then RetriesError else StatusError (status r)
  | Rejected msg => FetchFailure msg
  end.

Definition final_wait (o : FetchOutcome) : list Event :=
  match o with
  | Resolved r => if (status r =? 429)%Z then [EvWait (backoff (maxRetries - 1))] else []
  | Rejected _ => []
  end.

(** The requests and the waiting time in a trace. *)
Fixpoint fetches (evs : list Event) : nat :=
  match evs with
  | [] => 0
  | EvFetch _ :: evs' => S (fetches evs')
  | EvWait _ :: evs' => fetches evs'
  end.

Fixpoint waited (evs : list Event) : Z :=
  match evs with
  | [] => 0
  | EvWait ms :: evs' => ms + waited evs'
  | EvFetch _ :: evs' => waited evs'
  end.

(** The trace of one transport run: between one and five requests, all
    for its own image, and waits. *)
Definition segment_of (image : File) (seg : list Event) : Prop :=
  1 <= fetches seg <= 5 /\ Forall (transport_event image) seg.

(** An answer at the first attempt: usable text, or no candidates. *)
Definition answer (a : option string) : FetchOutcome :=
  match a with
  | Some raw => success raw
  | None => no_candidates
  end.

(** What the callback does to the component state for such an answer. *)
Definition absorb (s : AppState) (a : option string) : AppState :=
  match a with
  | Some raw =>
      update_allExtracted (merge (parse (Str.trim raw)))
        (with_extractedData (Str.trim raw) s)
  | None => with_error could_not_extract s
  end.

Definition is_empty_answer (a : option string) : bool :=
  match a with Some _ => false | None => true end.

(** ** Worked examples *)

Example parse_two_lines :
  parse "H1,H2
A,B" = [["H1"; "H2"]; ["A"; "B"]].
Proof. reflexivity. Qed.

Example parse_empty : parse EmptyString = [[EmptyString]].
Proof. reflexivity. Qed.

Example trim_both : Str.trim "  a b
" = "a b".
Proof. reflexivity. Qed.

(** * Properties *)

(** ** Parser *)

Lemma split_nonempty sep s : Str.split sep s <> [].
Proof.
  destruct s as [|c s]; simpl; [easy|].
  destruct (Ascii.eqb c sep); [easy|].
  destruct (Str.split sep s); easy.
Qed.

(** The parser yields at least one row, whatever the text. *)
Lemma parse_nonempty text : parse text <> [].
Proof.
  unfold parse. intros H. apply fmap_nil_inv in H.
  exact (split_nonempty _ _ H).
Qed.

(** ** Accumulator: merge *)

Lemma merge_empty rows : merge rows [] = rows.
Proof. reflexivity. Qed.

Lemma merge_nonempty rows prev :
  prev <> [] -> merge rows prev = (prev ++ slice1 rows)%list.
Proof. destruct prev; [congruence | reflexivity]. Qed.

Lemma merge_length_le rows prev :
  length (merge rows prev) <= length prev + length rows.
Proof.
  destruct prev as [|p prev]; [rewrite merge_empty; simpl; lia|].
  rewrite merge_nonempty by easy. unfold slice1.
  rewrite length_app, length_drop. lia.
Qed.

(** Once the dataset holds a row it never becomes empty again. *)
Lemma merge_keeps_nonempty rows prev : prev <> [] -> merge rows prev <> [].
Proof.
  intros H. rewrite merge_nonempty by assumption.
  destruct prev; [congruence | discriminate].
Qed.

(** ** Accumulator: editCell *)

Lemma editCell_in_range r c v (ds : Dataset) (row : list string) :
  ds !! r = Some row -> c < length row ->
  editCell r c v ds = Edited (<[r := <[c := v]> row]> ds).
Proof.
  intros Hr Hc. unfold editCell. rewrite Hr.
  destruct (Nat.ltb_spec c (length row)); [reflexivity | lia].
Qed.


Lemma cell_inv (ds : Dataset) r c x :
  cell ds r c = Some x <-> exists row, ds !! r = Some row /\ row !! c = Some x.
Proof.
  unfold cell. destruct (ds !! r) as [row|]; simpl.
  - split; [eauto | intros (row' & [= <-] & H); exact H].
  - split; [discriminate | intros (row' & [=] & _)].
Qed.

(** ** Retrying transport: the equations of the loop *)

Section TransportFacts.

Variable net : nat -> FetchOutcome.
Variable image : File.

Implicit Types (w : World) (r : Response) (resp : option Response).

Lemma retry_loop_exit fuel retries resp :
  maxRetries <= retries -> retry_loop net fuel image retries resp = ret resp.
Proof.
  intros H. destruct fuel; simpl;
    destruct (Nat.ltb_spec retries maxRetries); solve [lia | reflexivity].
Qed.

Lemma world_after_wait w d :
  {| app := app w; calls := S (calls w);
     log := ((log w ++ [EvFetch image]) ++ [EvWait d])%list |}
  = attempted image [EvWait d] w.
Proof. unfold attempted. now rewrite <- app_assoc. Qed.

Ltac enter_loop :=
  simpl retry_loop;
  try match goal with
  | |- context [(?n <? maxRetries)%nat] =>
      destruct (Nat.ltb_spec n maxRetries); [|lia]
  end;
  unfold bind at 1, fetch at 1; cbn [app calls log].

Ltac in_catch :=
  match goal with
  | |- context [(?n <? ?m)%nat] =>
      destruct (Nat.ltb_spec n m); [|unfold maxRetries in *; lia]
  end.

Lemma sleep_then {A} d (k : M A) w :
  (sleep d ;; k) w
  = k {| app := app w; calls := calls w; log := (log w ++ [EvWait d])%list |}.
Proof. reflexivity. Qed.

Ltac after_sleep :=
  rewrite sleep_then; cbn [app calls log]; now rewrite world_after_wait.

Lemma status_429_not_ok r : status r = 429%Z -> ok r = false.
Proof. unfold ok. intros ->. reflexivity. Qed.

Lemma retry_loop_ok fuel retries resp w r :
  retries < maxRetries -> net (calls w) = Resolved r -> ok r = true ->
  retry_loop net (S fuel) image retries resp w
  = (Done (Some r), attempted image [] w).
Proof.
  intros Hlt Hnet Hok. enter_loop. rewrite Hnet, Hok. reflexivity.
Qed.

Lemma retry_loop_throttled fuel retries resp w r :
  retries < maxRetries -> net (calls w) = Resolved r -> status r = 429%Z ->
  retry_loop net (S fuel) image retries resp w
  = retry_loop net fuel image (S retries) (Some r)
      (attempted image [EvWait (backoff retries)] w).
Proof.
  intros Hlt Hnet Hst. enter_loop.
  rewrite Hnet, (status_429_not_ok r Hst), Hst, Z.eqb_refl. after_sleep.
Qed.

Lemma retry_loop_caught_status fuel retries resp w r :
  retries < maxRetries - 1 -> net (calls w) = Resolved r ->
  ok r = false -> status r <> 429%Z ->
  retry_loop net (S fuel) image retries resp w
  = retry_loop net fuel image (S retries) (Some r)
      (attempted image [EvWait (backoff retries)] w).
Proof.
  intros Hlt Hnet Hok Hst. enter_loop. rewrite Hnet, Hok.
  destruct (Z.eqb_spec (status r) 429); [contradiction|]. in_catch.
  after_sleep.
Qed.

Lemma retry_loop_caught_fault fuel retries resp w msg :
  retries < maxRetries - 1 -> net (calls w) = Rejected msg ->
  retry_loop net (S fuel) image retries resp w
  = retry_loop net fuel image (S retries) resp
      (attempted image [EvWait (backoff retries)] w).
Proof.
  intros Hlt Hnet. enter_loop. rewrite Hnet. in_catch.
  after_sleep.
Qed.

Lemma retry_loop_last_status fuel resp w r :
  net (calls w) = Resolved r -> ok r = false -> status r <> 429%Z ->
  retry_loop net (S fuel) image (maxRetries - 1) resp w
  = (Throw (StatusError (status r)), attempted image [] w).
Proof.
  intros Hnet Hok Hst. enter_loop. rewrite Hnet, Hok.
  destruct (Z.eqb_spec (status r) 429); [contradiction|]. reflexivity.
Qed.

Lemma retry_loop_last_fault fuel resp w msg :
  net (calls w) = Rejected msg ->
  retry_loop net (S fuel) image (maxRetries - 1) resp w
  = (Throw (FetchFailure msg), attempted image [] w).
Proof.
  intros Hnet. enter_loop. rewrite Hnet. reflexivity.
Qed.

(** One iteration either leaves the loop with an [ok] response, goes on
    with one more retry after the backoff delay, or throws on the last
    attempt. *)
Lemma retry_loop_cases fuel retries resp w :
  retries < maxRetries ->
  (exists r, net (calls w) = Resolved r /\ ok r = true /\
     retry_loop net (S fuel) image retries resp w
     = (Done (Some r), attempted image [] w))
  \/ (exists resp',
     retries < maxRetries - 1 /\
     retry_loop net (S fuel) image retries resp w
     = retry_loop net fuel image (S retries) resp'
         (attempted image [EvWait (backoff retries)] w))
  \/ (exists r, net (calls w) = Resolved r /\ status r = 429%Z /\
     retries = maxRetries - 1 /\
     retry_loop net (S fuel) image retries resp w
     = retry_loop net fuel image maxRetries (Some r)
         (attempted image [EvWait (backoff retries)] w))
  \/ (exists e, retries = maxRetries - 1 /\
     retry_loop net (S fuel) image retries resp w
     = (Throw e, attempted image [] w)).
Proof.
  intros Hlt.
  destruct (net (calls w)) as [r|msg] eqn:Hnet.
  - destruct (ok r) eqn:Hok.
    { left. exists r. auto using retry_loop_ok. }
    destruct (Z.eq_dec (status r) 429%Z) as [Hst|Hst].
    + destruct (Nat.lt_ge_cases retries (maxRetries - 1)).
      * right; left. exists (Some r). auto using retry_loop_throttled.
      * right; right; left. exists r.
        assert (retries = maxRetries - 1) as -> by lia.
        rewrite (retry_loop_throttled _ _ _ _ r) by (assumption || reflexivity).
        auto.
    + destruct (Nat.lt_ge_cases retries (maxRetries - 1)).
      * right; left. exists (Some r). auto using retry_loop_caught_status.
      * right; right; right. exists (StatusError (status r)).
        assert (retries = maxRetries - 1) as -> by lia.
        auto using retry_loop_last_status.
  - destruct (Nat.lt_ge_cases retries (maxRetries - 1)).
    + right; left. exists resp. eauto using retry_loop_caught_fault.
    + right; right; right. exists (FetchFailure msg).
      assert (retries = maxRetries - 1) as -> by lia.
      auto using retry_loop_last_fault.
Qed.

(** The loop touches neither the component state nor earlier events. *)
Lemma retry_loop_frame fuel : forall retries resp w,
  app (retry_loop net fuel image retries resp w).2 = app w
  /\ exists evs,
       log (retry_loop net fuel image retries resp w).2 = (log w ++ evs)%list
       /\ Forall (transport_event image) evs.
Proof.
  assert (Hnil : forall w, app w = app w /\
            exists evs, log w = (log w ++ evs)%list /\ Forall (transport_event image) evs).
  { intros w. split; [reflexivity|]. exists []. now rewrite app_nil_r. }
  assert (Hext : forall w evs0 w',
            Forall (transport_event image) evs0 ->
            (app w' = app (attempted image evs0 w)
             /\ exists evs, log w' = (log (attempted image evs0 w) ++ evs)%list
                  /\ Forall (transport_event image) evs) ->
            app w' = app w
            /\ exists evs, log w' = (log w ++ evs)%list
                 /\ Forall (transport_event image) evs).
  { intros w evs0 w' H0 [Ha (evs & Hl & Hf)]. split; [exact Ha|].
    exists (EvFetch image :: evs0 ++ evs)%list. split.
    - rewrite Hl. simpl. now rewrite <- app_assoc.
    - constructor; [now left|]. now apply Forall_app. }
  induction fuel as [|fuel IH]; intros retries resp w.
  - simpl. destruct (retries <? maxRetries)%nat; simpl; apply Hnil.
  - destruct (Nat.lt_ge_cases retries maxRetries) as [Hlt|Hge].
    2:{ rewrite retry_loop_exit by assumption. apply Hnil. }
    destruct (retry_loop_cases fuel retries resp w Hlt)
      as [(r & _ & _ & ->) | [(resp' & _ & ->) | [(r & _ & _ & _ & ->) | (e & _ & ->)]]];
      simpl snd.
    + apply (Hext w []); [constructor|]. apply Hnil.
    + apply (Hext w [EvWait (backoff retries)]); [|apply IH].
      constructor; [right; eauto | constructor].
    + apply (Hext w [EvWait (backoff retries)]); [|apply IH].
      constructor; [right; eauto | constructor].
    + apply (Hext w []); [constructor|]. apply Hnil.
Qed.

(** The unrolling bound of [send] is never reached. *)
Lemma retry_loop_fuel fuel : forall retries resp w,
  maxRetries <= retries + fuel ->
  (retry_loop net fuel image retries resp w).1 <> OutOfFuel.
Proof.
  induction fuel as [|fuel IH]; intros retries resp w Hle.
  - rewrite retry_loop_exit by lia. discriminate.
  - destruct (Nat.lt_ge_cases retries maxRetries) as [Hlt|Hge].
    2:{ rewrite retry_loop_exit by assumption. discriminate. }
    destruct (retry_loop_cases fuel retries resp w Hlt)
      as [(r & _ & _ & ->) | [(resp' & _ & ->) | [(r & _ & _ & _ & ->) | (e & _ & ->)]]];
      try discriminate; apply IH; lia.
Qed.

End TransportFacts.

(** ** Retrying transport: throttling, faults, other statuses *)

(** The delay starts at [initialDelay] and doubles with every retry; it
    depends on the attempt alone. *)
Lemma backoff_doubles retries :
  backoff 0 = initialDelay /\ backoff (S retries) = (2 * backoff retries)%Z.
Proof.
  unfold backoff. split; [reflexivity|].
  rewrite Nat2Z.inj_succ, Z.pow_succ_r by lia. lia.
Qed.

(** C3. With [maxRetries = 5] and [initialDelay = 1000], a request throttled
    (status 429) on every attempt is sent 5 times, waits 1000, 2000, 4000,
    8000 and 16000 ms after the successive attempts, is not sent a 6th time,
    and ends with the "failed after multiple retries" error. *)
Theorem send_throttled_exhausts net image w :
  (forall k, k < 5 -> exists r, net (calls w + k) = Resolved r /\ status r = 429%Z) ->
  send net image w
  = (Throw RetriesError,
     {| app := app w; calls := calls w + 5;
        log := (log w ++ [ EvFetch image; EvWait 1000;
                           EvFetch image; EvWait 2000;
                           EvFetch image; EvWait 4000;
                           EvFetch image; EvWait 8000;
                           EvFetch image; EvWait 16000 ])%list |}).
Proof.
  intros H.
  destruct (H 0) as (r0 & N0 & S0); [lia|].
  destruct (H 1) as (r1 & N1 & S1); [lia|].
  destruct (H 2) as (r2 & N2 & S2); [lia|].
  destruct (H 3) as (r3 & N3 & S3); [lia|].
  destruct (H 4) as (r4 & N4 & S4); [lia|].
  rewrite Nat.add_0_r in N0.
  replace (calls w + 1) with (S (calls w)) in N1 by lia.
  replace (calls w + 2) with (S (S (calls w))) in N2 by lia.
  replace (calls w + 3) with (S (S (S (calls w)))) in N3 by lia.
  replace (calls w + 4) with (S (S (S (S (calls w))))) in N4 by lia.
  unfold send, bind. change maxRetries with 5 at 1.
  rewrite (retry_loop_throttled net image _ _ _ _ r0) by (unfold maxRetries; lia || assumption).
  rewrite (retry_loop_throttled net image _ _ _ _ r1) by (unfold maxRetries; lia || assumption).
  rewrite (retry_loop_throttled net image _ _ _ _ r2) by (unfold maxRetries; lia || assumption).
  rewrite (retry_loop_throttled net image _ _ _ _ r3) by (unfold maxRetries; lia || assumption).
  rewrite (retry_loop_throttled net image _ _ _ _ r4) by (unfold maxRetries; lia || assumption).
  rewrite retry_loop_exit by (unfold maxRetries; lia).
  unfold ret. rewrite (status_429_not_ok r4 S4).
  unfold throw, attempted. cbn [app calls log]. f_equal. f_equal.
  - lia.
  - repeat rewrite <- app_assoc. reflexivity.
Qed.

Lemma throttling_for_faults_early from net n :
  n < from + (maxRetries - 1) ->
  throttling_for_faults from net n = as_throttled (net n).
Proof.
  intros H. unfold throttling_for_faults.
  destruct (Nat.ltb_spec n (from + (maxRetries - 1))); [reflexivity | lia].
Qed.

Lemma throttling_for_faults_late from net n :
  from + (maxRetries - 1) <= n -> throttling_for_faults from net n = net n.
Proof.
  intros H. unfold throttling_for_faults.
  destruct (Nat.ltb_spec n (from + (maxRetries - 1))); [lia | reflexivity].
Qed.

(** From any iteration on, the loop does the same on a network and on the
    network whose early faults are throttling responses; the value of
    [apiResponse] on entry plays no part. *)
Lemma retry_loop_throttling_for_faults net image from fuel :
  forall retries resp1 resp2 w,
    retries < maxRetries -> calls w = from + retries ->
    retry_loop net fuel image retries resp1 w
    = retry_loop (throttling_for_faults from net) fuel image retries resp2 w.
Proof.
  set (netT := throttling_for_faults from net).
  induction fuel as [|fuel IH]; intros retries resp1 resp2 w Hlt Hc.
  { simpl. destruct (retries <? maxRetries)%nat eqn:E; [reflexivity|].
    apply Nat.ltb_ge in E. lia. }
  assert (Hnext : calls (attempted image [EvWait (backoff retries)] w)
                  = from + S retries) by (simpl; lia).
  destruct (Nat.lt_ge_cases retries (maxRetries - 1)) as [Hearly|Hlate].
  - assert (HT : netT (calls w) = as_throttled (net (calls w))).
    { apply throttling_for_faults_early. lia. }
    assert (Hlt' : S retries < maxRetries) by lia.
    destruct (net (calls w)) as [r|msg] eqn:Hnet; simpl in HT.
    + destruct (ok r) eqn:Hok.
      { now rewrite !(retry_loop_ok _ _ _ _ _ _ r). }
      destruct (Z.eq_dec (status r) 429%Z) as [Hst|Hst].
      * rewrite !(retry_loop_throttled _ _ _ _ _ _ r) by assumption.
        now apply IH.
      * rewrite !(retry_loop_caught_status _ _ _ _ _ _ r) by assumption.
        now apply IH.
    + rewrite (retry_loop_caught_fault net image _ _ _ _ msg) by assumption.
      rewrite (retry_loop_throttled netT image _ _ _ _ _ Hlt HT) by reflexivity.
      now apply IH.
  - assert (retries = maxRetries - 1) as -> by lia.
    assert (HT : netT (calls w) = net (calls w)).
    { apply throttling_for_faults_late. lia. }
    destruct (net (calls w)) as [r|msg] eqn:Hnet.
    + destruct (ok r) eqn:Hok.
      { now rewrite !(retry_loop_ok _ _ _ _ _ _ r). }
      destruct (Z.eq_dec (status r) 429%Z) as [Hst|Hst].
      * rewrite !(retry_loop_throttled _ _ _ _ _ _ r) by assumption.
        now rewrite !retry_loop_exit by (unfold maxRetries; lia).
      * now rewrite !(retry_loop_last_status _ _ _ _ _ r).
    + now rewrite !(retry_loop_last_fault _ _ _ _ _ msg).
Qed.

(** C4. A fault raised by [fetch] is treated as throttling is: on each of the
    first four attempts, replacing a fault by a 429 answer changes neither
    the events (same requests, same backoff delays) nor the outcome of the
    transport; and a request that faults on every attempt is sent 5 times,
    as many as a throttled one, with delays 1000, 2000, 4000 and 8000 ms in
    between, after which the last fault is thrown. *)
Theorem send_faults_like_throttling net image w :
  send net image w = send (throttling_for_faults (calls w) net) image w
  /\ ((forall k, k < 5 -> exists msg, net (calls w + k) = Rejected msg) ->
      exists last,
        net (calls w + 4) = Rejected last
        /\ send net image w
           = (Throw (FetchFailure last),
              {| app := app w; calls := calls w + 5;
                 log := (log w ++ [ EvFetch image; EvWait 1000;
                                    EvFetch image; EvWait 2000;
                                    EvFetch image; EvWait 4000;
                                    EvFetch image; EvWait 8000;
                                    EvFetch image ])%list |})).
Proof.
  split.
  - unfold send, bind.
    rewrite (retry_loop_throttling_for_faults net image (calls w) _ 0 None None w);
      [reflexivity | unfold maxRetries; lia | lia].
  - intros H.
    destruct (H 0) as (m0 & N0); [lia|].
    destruct (H 1) as (m1 & N1); [lia|].
    destruct (H 2) as (m2 & N2); [lia|].
    destruct (H 3) as (m3 & N3); [lia|].
    destruct (H 4) as (m4 & N4); [lia|].
    exists m4. split; [exact N4|].
    rewrite Nat.add_0_r in N0.
    replace (calls w + 1) with (S (calls w)) in N1 by lia.
    replace (calls w + 2) with (S (S (calls w))) in N2 by lia.
    replace (calls w + 3) with (S (S (S (calls w)))) in N3 by lia.
    replace (calls w + 4) with (S (S (S (S (calls w))))) in N4 by lia.
    unfold send, bind. change maxRetries with 5 at 1.
    rewrite (retry_loop_caught_fault net image _ _ _ _ m0) by (unfold maxRetries; lia || assumption).
    rewrite (retry_loop_caught_fault net image _ _ _ _ m1) by (unfold maxRetries; lia || assumption).
    rewrite (retry_loop_caught_fault net image _ _ _ _ m2) by (unfold maxRetries; lia || assumption).
    rewrite (retry_loop_caught_fault net image _ _ _ _ m3) by (unfold maxRetries; lia || assumption).
    change 4 with (maxRetries - 1) at 1.
    rewrite (retry_loop_last_fault net image _ _ _ m4) by assumption.
    unfold attempted. cbn [app calls log]. f_equal. f_equal.
    + lia.
    + repeat rewrite <- app_assoc. reflexivity.
Qed.

(** ** The batch loop *)

Section BatchFacts.

Variable net : nat -> FetchOutcome.

Implicit Types (w : World) (image : File) (files : list File).

(** The transport touches neither the component state nor earlier events,
    and emits only requests for its own image and waits. *)
Lemma send_frame image w :
  app (send net image w).2 = app w
  /\ exists evs, log (send net image w).2 = (log w ++ evs)%list
       /\ Forall (transport_event image) evs.
Proof.
  unfold send, bind.
  pose proof (retry_loop_frame net image maxRetries 0 None w) as H.
  destruct (retry_loop net maxRetries image 0 None w) as [[resp| | |] w1];
    simpl in *; try exact H.
  destruct resp as [r|]; [destruct (ok r)|]; exact H.
Qed.

Lemma send_app image w o w' : send net image w = (o, w') -> app w' = app w.
Proof. intros H. pose proof (send_frame image w) as [Ha _]. now rewrite H in Ha. Qed.

(** The transport always settles: with a response or with an exception. *)
Lemma send_settles image w :
  (exists r, (send net image w).1 = Done r /\ ok r = true)
  \/ exists e, (send net image w).1 = Throw e.
Proof.
  unfold send, bind.
  pose proof (retry_loop_fuel net image maxRetries 0 None w) as Hfuel.
  assert (Hpend : forall fuel retries resp w0,
             (retry_loop net fuel image retries resp w0).1 <> Pending).
  { induction fuel as [|fuel IH]; intros retries resp w0.
    - simpl. destruct (retries <? maxRetries)%nat; discriminate.
    - destruct (Nat.lt_ge_cases retries maxRetries) as [Hlt|Hge].
      2:{ rewrite retry_loop_exit by assumption. discriminate. }
      destruct (retry_loop_cases net image fuel retries resp w0 Hlt)
        as [(r & _ & _ & ->) | [(resp' & _ & ->) | [(r & _ & _ & _ & ->) | (e & _ & ->)]]];
        try discriminate; apply IH. }
  specialize (Hpend maxRetries 0 None w).
  destruct (retry_loop net maxRetries image 0 None w) as [[resp|e| |] w1];
    simpl in *.
  - destruct resp as [r|]; [destruct (ok r) eqn:Hok|]; simpl; eauto.
  - eauto.
  - congruence.
  - exfalso. apply Hfuel; [unfold maxRetries; lia | reflexivity].
Qed.

Lemma onloadend_send_throws image w e w1 :
  send net image w = (Throw e, w1) -> onloadend net image w = (Throw e, w1).
Proof. intros H. unfold onloadend, bind. now rewrite H. Qed.

Lemma onloadend_empty image w r result w1 :
  send net image w = (Done r, w1) -> body r = Some result ->
  usable result = None ->
  onloadend net image w
  = (Done tt, with_app (with_error could_not_extract (app w)) w1).
Proof.
  intros H Hb Hu. unfold onloadend, bind, json. rewrite H, Hb. unfold ret.
  rewrite Hu. unfold setError, modify_app, with_app.
  now rewrite (send_app _ _ _ _ H).
Qed.

Lemma onloadend_merges image w r result p0 raw w1 :
  send net image w = (Done r, w1) -> body r = Some result ->
  usable result = Some p0 -> text p0 = Some raw ->
  onloadend net image w
  = (Done tt,
     with_app (update_allExtracted (merge (parse (Str.trim raw)))
                 (with_extractedData (Str.trim raw) (app w))) w1).
Proof.
  intros H Hb Hu Ht. unfold onloadend, bind, json. rewrite H, Hb. unfold ret.
  rewrite Hu, Ht. unfold setExtractedData, setAllExtracted, modify_app, with_app.
  cbn [app calls log]. now rewrite (send_app _ _ _ _ H).
Qed.

Lemma for_images_next image rest w w1 :
  onloadend net image w = (Done tt, w1) ->
  for_images net (image :: rest) w = for_images net rest w1.
Proof. intros H. simpl. unfold bind, await_reader. now rewrite H. Qed.

(** An exception in the callback leaves the awaited promise unsettled: the
    loop, and [handleExtract] with it, never resumes. *)
Lemma for_images_stuck image rest w e w1 :
  onloadend net image w = (Throw e, w1) ->
  for_images net (image :: rest) w = (Pending, w1).
Proof. intros H. simpl. unfold bind, await_reader. now rewrite H. Qed.

Lemma for_images_app pre post w w1 :
  for_images net pre w = (Done tt, w1) ->
  for_images net (pre ++ post) w = for_images net post w1.
Proof.
  revert w. induction pre as [|image pre IH]; intros w H.
  - simpl in H. injection H as <-. reflexivity.
  - simpl in *. unfold bind in *.
    destruct (await_reader (onloadend net image) w) as [[[]| | |] w'];
      try discriminate. now apply IH.
Qed.

(** No exception leaves the loop, so the [catch] block of [handleExtract]
    is never entered. *)
Lemma for_images_no_throw files : forall w e, (for_images net files w).1 <> Throw e.
Proof.
  induction files as [|image rest IH]; intros w e; [discriminate|].
  simpl. unfold bind, await_reader.
  destruct (onloadend net image w) as [[[]| | |] w']; try discriminate. apply IH.
Qed.

Lemma try_catch_for_images files w :
  try_catch (for_images net files) (on_error) w = for_images net files w.
Proof.
  unfold try_catch. pose proof (for_images_no_throw files w) as H.
  destruct (for_images net files w) as [[| e | |] w']; try reflexivity.
  now destruct (H e).
Qed.

Lemma handleExtract_batch w :
  imageFiles (app w) <> [] ->
  handleExtract net w
  = (for_images net (imageFiles (app w)) ;; setLoading false) (started w).
Proof.
  intros H. unfold handleExtract.
  unfold bind at 1, setExtractedData at 1, modify_app at 1.
  unfold bind at 1, setError at 1, modify_app at 1.
  cbn [app calls log imageFiles with_error with_extractedData].
  destruct (imageFiles (app w)) as [|f files] eqn:E; [congruence|].
  cbn [length Nat.eqb].
  unfold bind at 1, setLoading at 1, modify_app at 1.
  cbn [app calls log].
  unfold bind at 1. rewrite try_catch_for_images.
  unfold started, with_app, bind. reflexivity.
Qed.


End BatchFacts.

Lemma send_first_ok net image w r :
  net (calls w) = Resolved r -> ok r = true ->
  send net image w = (Done r, attempted image [] w).
Proof.
  intros Hnet Hok. unfold send, bind. change maxRetries with 5 at 1.
  rewrite (retry_loop_ok net image _ _ _ _ r) by (unfold maxRetries; lia || assumption).
  now rewrite Hok.
Qed.

(** ** Merging *)

(** C1. Merging into an empty dataset adopts the whole incoming sequence;
    merging into a non-empty dataset keeps the existing rows, in order, and
    appends the incoming rows from index 1 on. A batch of two images answered
    with "H1,H2\nA,B" and "H1,H2\nC,D", run on an empty dataset, ends with
    the dataset [["H1","H2"],["A","B"],["C","D"]]. *)
Theorem merge_policy :
  (forall rows : Dataset, merge rows [] = rows)
  /\ (forall rows prev : Dataset,
        prev <> [] ->
        merge rows prev = (prev ++ slice1 rows)%list
        /\ take (length prev) (merge rows prev) = prev)
  /\ (forall net image1 image2 w,
        imageFiles (app w) = [image1; image2] ->
        allExtracted (app w) = [] ->
        net (calls w) = success answer_AB ->
        net (S (calls w)) = success answer_CD ->
        exists w',
          handleExtract net w = (Done tt, w')
          /\ allExtracted (app w') = [["H1"; "H2"]; ["A"; "B"]; ["C"; "D"]]).
Proof.
  split; [exact merge_empty|]. split.
  - intros rows prev H. rewrite merge_nonempty by assumption.
    split; [reflexivity|]. now rewrite take_app_length.
  - intros net image1 image2 w Hfiles Hds H1 H2.
    rewrite handleExtract_batch by (rewrite Hfiles; discriminate).
    rewrite Hfiles. unfold bind at 1.
    erewrite for_images_next.
    2:{ eapply onloadend_merges;
          [apply send_first_ok; [exact H1 | reflexivity] | reflexivity ..]. }
    erewrite for_images_next.
    2:{ eapply onloadend_merges;
          [apply send_first_ok; [exact H2 | reflexivity] | reflexivity ..]. }
    eexists. split; [reflexivity|].
    cbn [app allExtracted with_app update_allExtracted with_extractedData
         with_loading with_error started attempted].
    rewrite Hds. reflexivity.
Qed.

Lemma merge_policy_witness :
  merge [["H1"; "H2"]; ["C"; "D"]] [["H1"; "H2"]; ["A"; "B"]]
  = [["H1"; "H2"]; ["A"; "B"]; ["C"; "D"]]
  /\ exists w',
       handleExtract net_two_answers (fresh [label1; label2]) = (Done tt, w')
       /\ allExtracted (app w') = [["H1"; "H2"]; ["A"; "B"]; ["C"; "D"]].
Proof.
  destruct merge_policy as (_ & Hmerge & Hbatch). split.
  - apply (Hmerge [["H1"; "H2"]; ["C"; "D"]] [["H1"; "H2"]; ["A"; "B"]]).
    discriminate.
  - apply (Hbatch _ label1 label2 (fresh [label1; label2])); reflexivity.
Defined.

(** ** Other failure statuses *)

(** A status that is neither a success nor 429 on an attempt before the
    fifth is thrown inside the [try] and caught by its own [catch]: the
    transport waits the backoff delay and sends the request again. *)
Lemma send_status_error_retried net image w r :
  net (calls w) = Resolved r -> ok r = false -> status r <> 429%Z ->
  exists evs,
    log (send net image w).2
    = (log w ++ [EvFetch image; EvWait 1000; EvFetch image] ++ evs)%list.
Proof.
  intros Hnet Hok Hst. unfold send, bind. change maxRetries with 5 at 1.
  rewrite (retry_loop_caught_status net image _ _ _ _ r)
    by (unfold maxRetries; lia || assumption).
  set (w1 := attempted image [EvWait (backoff 0)] w).
  assert (Hlog : exists evs,
             log (retry_loop net 4 image 1 (Some r) w1).2
             = (log w ++ [EvFetch image; EvWait 1000; EvFetch image] ++ evs)%list).
  { destruct (retry_loop_cases net image 3 1 (Some r) w1)
      as [(r' & _ & _ & ->) | [(resp' & _ & ->) | [(r' & _ & _ & E & _) | (e & E & _)]]];
      [unfold maxRetries; lia | | | discriminate E | discriminate E].
    - exists []. subst w1. unfold attempted. cbn [snd log].
      change (backoff 0) with 1000%Z. rewrite <- !app_assoc. reflexivity.
    - destruct (retry_loop_frame net image 3 2 resp'
                  (attempted image [EvWait (backoff 1)] w1)) as (_ & evs & -> & _).
      exists (EvWait (backoff 1) :: evs). subst w1. unfold attempted.
      cbn [snd log]. change (backoff 0) with 1000%Z.
      rewrite <- !app_assoc. reflexivity. }
  destruct (retry_loop net 4 image 1 (Some r) w1) as [[resp|e| |] w2];
    simpl in *; try exact Hlog.
  destruct resp as [r'|]; [destruct (ok r')|]; exact Hlog.
Qed.

(** C2, as the code has it. A request answered with status 500 is not
    failed at once: the transport waits 1000 ms and sends it again, and the
    batch goes on with the second answer; only a fifth failure in a row is
    thrown, with the status in its message. *)
Theorem send_retries_after_status_500 :
  send net_500_then_answer label1 (fresh [label1])
  = (Done {| status := 200;
             body := Some {| candidates :=
               Some [ {| content := Some {| parts := Some [ {| text := Some answer_AB |} ] |} |} ] |} |},
     {| app := app (fresh [label1]); calls := 2;
        log := [EvFetch label1; EvWait 1000; EvFetch label1] |})
  /\ send (net_always (failure 500)) label1 (fresh [label1])
     = (Throw (StatusError 500),
        {| app := app (fresh [label1]); calls := 5;
           log := [ EvFetch label1; EvWait 1000; EvFetch label1; EvWait 2000;
                    EvFetch label1; EvWait 4000; EvFetch label1; EvWait 8000;
                    EvFetch label1 ] |})
  /\ message (StatusError 500) = "API call failed with status: 500".
Proof. repeat split; reflexivity. Qed.

(** ** Batch failures *)

(** C6, as the code has it. In a batch of two images whose first request is
    throttled on all 5 attempts, the second image is never requested and the
    dataset stays empty, but no error message is surfaced: the exception is
    raised inside the [async] callback, [handleExtract] stays suspended, the
    error stays empty and the loading flag stays set. *)
Theorem throttled_batch_never_reports :
  handleExtract (net_always (failure 429)) (fresh [label1; label2])
  = (Pending,
     {| app := {| imageFiles := [label1; label2]; extractedData := EmptyString;
                  loading := true; error := EmptyString; allExtracted := [] |};
        calls := 5;
        log := [ EvFetch label1; EvWait 1000; EvFetch label1; EvWait 2000;
                 EvFetch label1; EvWait 4000; EvFetch label1; EvWait 8000;
                 EvFetch label1; EvWait 16000 ] |}).
Proof. reflexivity. Qed.





Lemma send_throttled_exhausts_witness :
  send (net_always (failure 429)) label1 (fresh [label1])
  = (Throw RetriesError,
     {| app := app (fresh [label1]); calls := calls (fresh [label1]) + 5;
        log := (log (fresh [label1])
                ++ [ EvFetch label1; EvWait 1000; EvFetch label1; EvWait 2000;
                     EvFetch label1; EvWait 4000; EvFetch label1; EvWait 8000;
                     EvFetch label1; EvWait 16000 ])%list |}).
Proof.
  apply (send_throttled_exhausts (net_always (failure 429)) label1 (fresh [label1])).
  intros k _. exists {| status := 429; body := None |}. split; reflexivity.
Defined.

Lemma send_faults_like_throttling_witness :
  exists last,
    net_always (Rejected "Failed to fetch") (calls (fresh [label1]) + 4) = Rejected last
    /\ send (net_always (Rejected "Failed to fetch")) label1 (fresh [label1])
       = (Throw (FetchFailure last),
          {| app := app (fresh [label1]); calls := calls (fresh [label1]) + 5;
             log := (log (fresh [label1])
                     ++ [ EvFetch label1; EvWait 1000; EvFetch label1; EvWait 2000;
                          EvFetch label1; EvWait 4000; EvFetch label1; EvWait 8000;
                          EvFetch label1 ])%list |}).
Proof.
  apply (proj2 (send_faults_like_throttling
                  (net_always (Rejected "Failed to fetch")) label1 (fresh [label1]))).
  intros k _. exists "Failed to fetch". reflexivity.
Defined.

(** ** Editing *)




(** ** Export *)



(** ** Shape of the dataset *)









(** An edit just past the end of a row grows the row by one cell, which
    is why the shape theorem asks edits to address existing cells. *)
Lemma edit_past_row_end_grows_row :
  run [OpMerge [headers; row_A]; OpEdit 1 7 "extra"] []
  = Some [headers; (row_A ++ ["extra"])%list].
Proof. reflexivity. Qed.

(** * Further properties of the component *)

(** ** Splitting and joining *)

Lemma join_cons sep p q qs :
  Str.join sep (p :: q :: qs) = p +:+ sep +:+ Str.join sep (q :: qs).
Proof. reflexivity. Qed.

(** [s.split(c).join(c)] gives [s] back. *)
Lemma join_split sep s : Str.join (String sep EmptyString) (Str.split sep s) = s.
Proof.
  induction s as [|c s IH]; [reflexivity|]. simpl.
  destruct (Ascii.eqb_spec c sep) as [->|Hne].
  - pose proof (split_nonempty sep s) as Hs.
    destruct (Str.split sep s) as [|w ws]; [congruence|].
    rewrite join_cons, IH. reflexivity.
  - pose proof (split_nonempty sep s) as Hs.
    destruct (Str.split sep s) as [|w ws]; [congruence|].
    destruct ws as [|w' ws]; simpl in *; now rewrite <- IH.
Qed.

Lemma split_no_sep sep s : has_char sep s = false -> Str.split sep s = [s].
Proof.
  induction s as [|c s IH]; [reflexivity|]. simpl.
  destruct (Ascii.eqb c sep); [discriminate|]. simpl. intros H.
  now rewrite IH.
Qed.

Lemma split_app_sep sep p rest :
  has_char sep p = false ->
  Str.split sep (p +:+ String sep rest) = p :: Str.split sep rest.
Proof.
  induction p as [|c p IH]; simpl.
  - intros _. now rewrite Ascii.eqb_refl.
  - destruct (Ascii.eqb c sep); [discriminate|]. simpl. intros H.
    now rewrite IH.
Qed.

(** [parts.join(c).split(c)] gives [parts] back when there is at least one
    part and no part holds [c]. *)
Lemma split_join sep parts :
  parts <> [] -> Forall (fun p => has_char sep p = false) parts ->
  Str.split sep (Str.join (String sep EmptyString) parts) = parts.
Proof.
  induction parts as [|p ps IH]; [congruence|]. intros _ Hall.
  apply Forall_cons in Hall as [Hp Hps].
  destruct ps as [|q qs].
  - simpl. now apply split_no_sep.
  - rewrite join_cons.
    change (String sep EmptyString +:+ Str.join (String sep EmptyString) (q :: qs))
      with (String sep (Str.join (String sep EmptyString) (q :: qs))).
    rewrite split_app_sep by assumption. f_equal. now apply IH.
Qed.

Lemma split_parts_no_sep sep s :
  Forall (fun p => has_char sep p = false) (Str.split sep s).
Proof.
  induction s as [|c s IH]; simpl; [repeat constructor|].
  destruct (Ascii.eqb_spec c sep) as [->|Hne].
  - constructor; [reflexivity | exact IH].
  - destruct (Str.split sep s) as [|w ws]; [repeat constructor|].
    + simpl. now destruct (Ascii.eqb_spec c sep).
    + apply Forall_cons in IH as [Hw Hws]. constructor; [|exact Hws].
      simpl. destruct (Ascii.eqb_spec c sep); [contradiction | exact Hw].
Qed.

Lemma split_parts_keep_absent c sep s :
  has_char c s = false ->
  Forall (fun p => has_char c p = false) (Str.split sep s).
Proof.
  induction s as [|c' s IH]; simpl; [repeat constructor|].
  destruct (Ascii.eqb c' c) eqn:Ec; [discriminate|]. simpl. intros H.
  specialize (IH H).
  destruct (Ascii.eqb c' sep).
  - constructor; [reflexivity | exact IH].
  - destruct (Str.split sep s) as [|w ws].
    + repeat constructor. simpl. now rewrite Ec.
    + apply Forall_cons in IH as [Hw Hws]. constructor; [|exact Hws].
      simpl. now rewrite Ec.
Qed.

Lemma split_length sep s : length (Str.split sep s) = S (count_char sep s).
Proof.
  induction s as [|c s IH]; [reflexivity|]. simpl.
  destruct (Ascii.eqb c sep); simpl.
  - now rewrite IH.
  - destruct (Str.split sep s); simpl in *; lia.
Qed.

(** The exported text, line by line. *)
Lemma csv_export_lines s :
  allExtracted s <> [] ->
  exists file,
    (handleDownloadCSV s).2 = Some file
    /\ csvContent file
       = Str.join (String LF EmptyString)
           (Str.join (String COMMA EmptyString) <$> (headers :: allExtracted s)).
Proof.
  intros Hne. unfold handleDownloadCSV.
  destruct (allExtracted s) as [|row rows]; [congruence|].
  eexists. split; reflexivity.
Qed.

(** ** The parser *)

Lemma has_char_app c a b : has_char c (a +:+ b) = has_char c a || has_char c b.
Proof.
  induction a as [|c' a IH]; [reflexivity|]. simpl. rewrite IH.
  now rewrite orb_assoc.
Qed.

Lemma has_char_join c sep parts :
  Ascii.eqb sep c = false ->
  Forall (fun p => has_char c p = false) parts ->
  has_char c (Str.join (String sep EmptyString) parts) = false.
Proof.
  intros Hsep. induction parts as [|p ps IH]; [reflexivity|]. intros Hall.
  apply Forall_cons in Hall as [Hp Hps].
  destruct ps as [|q qs]; [exact Hp|].
  rewrite join_cons, !has_char_app, Hp, (IH Hps). simpl. now rewrite Hsep.
Qed.

Lemma plain_cell_inv c :
  plain_cell c = true <-> has_char COMMA c = false /\ has_char LF c = false.
Proof.
  unfold plain_cell. rewrite andb_true_iff, !negb_true_iff. reflexivity.
Qed.

Lemma parse_eq text : parse text = Str.split COMMA <$> Str.split LF text.
Proof. reflexivity. Qed.

Lemma parse_length text : length (parse text) = S (count_char LF text).
Proof. now rewrite parse_eq, length_fmap, split_length. Qed.

Lemma parse_rows_plain text : Forall plain_row (parse text).
Proof.
  rewrite parse_eq.
  apply Forall_fmap. eapply Forall_impl; [apply (split_parts_no_sep LF)|].
  intros line Hline. simpl. split; [apply split_nonempty|].
  pose proof (split_parts_no_sep COMMA line) as Hc.
  pose proof (split_parts_keep_absent LF COMMA line Hline) as Hl.
  rewrite Forall_forall in *. intros cell Hin.
  apply plain_cell_inv. auto.
Qed.

(** The parser yields one row per line of the text (its line feeds plus
    one), so never an empty dataset; every row has at least one cell, and no
    cell holds a comma or a line feed. *)
Theorem parse_shape text :
  length (parse text) = S (count_char LF text)
  /\ Forall plain_row (parse text).
Proof. split; [apply parse_length | apply parse_rows_plain]. Qed.

Lemma headers_plain : plain_row headers.
Proof. split; [discriminate|]. repeat constructor. Qed.

(** Parsing the exported text gives back the header row followed by the
    dataset, when every row has a cell and no cell holds a comma or a line
    feed. *)
Theorem csv_round_trip s :
  allExtracted s <> [] ->
  Forall plain_row (allExtracted s) ->
  exists file,
    (handleDownloadCSV s).2 = Some file
    /\ parse (csvContent file) = headers :: allExtracted s.
Proof.
  intros Hne Hplain.
  destruct (csv_export_lines s Hne) as (file & Hfile & Hcontent).
  exists file. split; [exact Hfile|]. rewrite Hcontent, parse_eq.
  assert (Hall : Forall plain_row (headers :: allExtracted s))
    by (constructor; [apply headers_plain | exact Hplain]).
  rewrite split_join.
  - rewrite <- list_fmap_compose. rewrite <- (list_fmap_id (headers :: _)) at 2.
    apply Forall_fmap_ext_1. eapply Forall_impl; [exact Hall|].
    intros row [Hrow Hcells]. simpl. apply split_join; [exact Hrow|].
    eapply Forall_impl; [exact Hcells|]. intros c Hc.
    now apply plain_cell_inv in Hc.
  - discriminate.
  - apply Forall_fmap. eapply Forall_impl; [exact Hall|].
    intros row [_ Hcells]. simpl. apply has_char_join; [reflexivity|].
    eapply Forall_impl; [exact Hcells|]. intros c Hc.
    now apply plain_cell_inv in Hc.
Qed.

Lemma csv_round_trip_witness :
  exists file,
    (handleDownloadCSV (holding [headers; row_A])).2 = Some file
    /\ parse (csvContent file) = headers :: allExtracted (holding [headers; row_A]).
Proof.
  apply (csv_round_trip (holding [headers; row_A])).
  - discriminate.
  - repeat (constructor; [split; [discriminate | repeat constructor]|]).
    constructor.
Defined.

(** ** Trimming the answer *)

Lemma trim_start_first s :
  forall c, first_char (Str.trim_start s) = Some c -> Str.is_space c = false.
Proof.
  induction s as [|c' s IH]; simpl; [discriminate|].
  destruct (Str.is_space c') eqn:E; [exact IH|].
  simpl. intros c [= <-]. exact E.
Qed.

Lemma trim_end_first s :
  (forall c, first_char s = Some c -> Str.is_space c = false) ->
  first_char (Str.trim_end s) = first_char s.
Proof.
  destruct s as [|c s]; [reflexivity|]. intros H. simpl.
  rewrite (H c eq_refl). now destruct (Str.trim_end s).
Qed.

Lemma trim_end_last s :
  forall c, last_char (Str.trim_end s) = Some c -> Str.is_space c = false.
Proof.
  induction s as [|c' s IH]; simpl; [discriminate|].
  destruct (Str.trim_end s) as [|d t] eqn:E.
  - destruct (Str.is_space c') eqn:Ec; simpl; [discriminate|].
    intros c [= <-]. exact Ec.
  - intros c. change (last_char (String c' (String d t)))
      with (match last_char (String d t) with None => Some c' | Some x => Some x end).
    destruct (last_char (String d t)) as [x|] eqn:El.
    + intros [= <-]. now apply IH.
    + simpl in El. destruct (last_char t); discriminate.
Qed.

Lemma split_singleton_empty sep s : Str.split sep s = [EmptyString] -> s = EmptyString.
Proof.
  destruct s as [|c s]; [reflexivity|]. simpl.
  pose proof (split_nonempty sep s) as Hs.
  destruct (Ascii.eqb c sep).
  - intros [= H]. congruence.
  - destruct (Str.split sep s); [congruence | discriminate].
Qed.

Lemma split_head_empty sep s ws :
  Str.split sep s = EmptyString :: ws -> s = EmptyString \/ first_char s = Some sep.
Proof.
  destruct s as [|c s]; [now left|]. simpl.
  destruct (Ascii.eqb_spec c sep) as [->|Hne]; [now right|].
  destruct (Str.split sep s); discriminate.
Qed.

Lemma split_last_empty sep s :
  last (Str.split sep s) = Some EmptyString ->
  s = EmptyString \/ last_char s = Some sep.
Proof.
  induction s as [|c s IH]; [now left|]. intros H. right.
  pose proof (split_nonempty sep s) as Hs.
  simpl in H. simpl last_char.
  destruct (Ascii.eqb_spec c sep) as [Heq|Hne].
  - subst c. destruct (Str.split sep s) as [|w ws] eqn:E; [congruence|].
    change (last (EmptyString :: w :: ws)) with (last (w :: ws)) in H.
    destruct (IH H) as [Hs0|Hl]; [now subst s | now rewrite Hl].
  - destruct (Str.split sep s) as [|w ws] eqn:E; [congruence|].
    destruct ws as [|w' ws]; [discriminate H|].
    change (last (String c w :: w' :: ws)) with (last (w' :: ws)) in H.
    assert (Hl : last (w :: w' :: ws) = Some EmptyString) by exact H.
    destruct (IH Hl) as [Hs0|Hl']; [subst s; discriminate E | now rewrite Hl'].
Qed.

Lemma LF_is_space : Str.is_space LF = true.
Proof. reflexivity. Qed.

(** The text is trimmed before it is parsed, so an answer that is not blank
    never gives a blank first or last row: line feeds around the answer add
    no rows. *)
Theorem trimmed_answer_has_no_blank_edge_rows raw :
  Str.trim raw <> EmptyString ->
  head (parse (Str.trim raw)) <> Some [EmptyString]
  /\ last (parse (Str.trim raw)) <> Some [EmptyString].
Proof.
  intros Hne. rewrite parse_eq.
  assert (Hfirst : forall c, first_char (Str.trim raw) = Some c -> Str.is_space c = false).
  { intros c. unfold Str.trim. rewrite trim_end_first by apply trim_start_first.
    apply trim_start_first. }
  assert (Hlast : forall c, last_char (Str.trim raw) = Some c -> Str.is_space c = false)
    by apply trim_end_last.
  split.
  - destruct (Str.split LF (Str.trim raw)) as [|w ws] eqn:E; [discriminate|].
    simpl. intros [= H]. apply split_singleton_empty in H. subst w.
    destruct (split_head_empty _ _ _ E) as [H|H]; [contradiction|].
    apply Hfirst in H. now rewrite LF_is_space in H.
  - rewrite fmap_last.
    destruct (last (Str.split LF (Str.trim raw))) as [w|] eqn:E; [|discriminate].
    simpl. intros [= H]. apply split_singleton_empty in H. subst w.
    destruct (split_last_empty _ _ E) as [H|H]; [contradiction|].
    apply Hlast in H. now rewrite LF_is_space in H.
Qed.

Lemma trimmed_answer_has_no_blank_edge_rows_witness :
  head (parse (Str.trim " H1,H2
A,B
")) <> Some [EmptyString]
  /\ last (parse (Str.trim " H1,H2
A,B
")) <> Some [EmptyString].
Proof.
  apply (trimmed_answer_has_no_blank_edge_rows " H1,H2
A,B
").
  discriminate.
Defined.

(** ** Successive merges *)

Lemma merge_all_nonempty seqs : forall ds : Dataset,
  ds <> [] -> merge_all seqs ds = (ds ++ concat (slice1 <$> seqs))%list.
Proof.
  induction seqs as [|rows seqs IH]; intros ds Hne.
  - simpl. now rewrite app_nil_r.
  - change (merge_all (rows :: seqs) ds) with (merge_all seqs (merge rows ds)).
    rewrite IH by now apply merge_keeps_nonempty.
    rewrite merge_nonempty by assumption. simpl. now rewrite <- app_assoc.
Qed.

Lemma slice1_parse_length text : length (slice1 (parse text)) = count_char LF text.
Proof.
  unfold slice1. rewrite length_drop, parse_length. lia.
Qed.

Lemma later_rows_length texts :
  length (concat ((fun t => slice1 (parse t)) <$> texts))
  = sum_list (count_char LF <$> texts).
Proof.
  induction texts as [|t ts IH]; [reflexivity|].
  rewrite !fmap_cons, concat_cons, length_app, slice1_parse_length, IH.
  reflexivity.
Qed.

(** Merging the answers of a session into the empty dataset keeps all rows
    of the first answer and the rows after the first of every later answer,
    in order: row 0 is the first row of the first answer, and the dataset has
    one row plus one per line feed of the answers. *)
Theorem merge_all_answers text texts :
  merge_all (parse <$> (text :: texts)) []
  = (parse text ++ concat ((fun t => slice1 (parse t)) <$> texts))%list
  /\ head (merge_all (parse <$> (text :: texts)) []) = head (parse text)
  /\ length (merge_all (parse <$> (text :: texts)) [])
     = S (sum_list (count_char LF <$> (text :: texts))).
Proof.
  assert (E : merge_all (parse <$> (text :: texts)) []
              = (parse text ++ concat ((fun t => slice1 (parse t)) <$> texts))%list).
  { change (merge_all (parse <$> (text :: texts)) [])
      with (merge_all (parse <$> texts) (parse text)).
    rewrite merge_all_nonempty by apply parse_nonempty.
    now rewrite <- list_fmap_compose. }
  split; [exact E|]. rewrite E. split.
  - pose proof (parse_nonempty text). now destruct (parse text).
  - rewrite length_app, parse_length, later_rows_length.
    rewrite fmap_cons. simpl sum_list. lia.
Qed.

(** An answer of a single line (no line feed) brings nothing into a
    dataset that already has rows: its only row is dropped as a header. *)
Theorem one_line_answer_is_dropped text (ds : Dataset) :
  has_char LF text = false -> ds <> [] -> merge (parse text) ds = ds.
Proof.
  intros Hlf Hne. rewrite merge_nonempty by assumption.
  rewrite parse_eq, (split_no_sep LF text Hlf). simpl. apply app_nil_r.
Qed.

Lemma one_line_answer_is_dropped_witness :
  merge (parse "1002,Bola,0802,N/A,Oyo,Ibadan,2 Ring Rd") [headers; row_A]
  = [headers; row_A].
Proof.
  apply (one_line_answer_is_dropped "1002,Bola,0802,N/A,Oyo,Ibadan,2 Ring Rd"
           [headers; row_A]).
  - reflexivity.
  - discriminate.
Defined.

(** ** Edits *)


Lemma editCell_at r c v (ds : Dataset) row :
  ds !! r = Some row -> c < length row ->
  editCell r c v ds = Edited (<[r := <[c := v]> row]> ds)
  /\ <[r := <[c := v]> row]> ds !! r = Some (<[c := v]> row)
  /\ c < length (<[c := v]> row).
Proof.
  intros Hrow Hc. split; [now apply editCell_in_range|]. split.
  - apply list_lookup_insert_eq. now apply lookup_lt_Some in Hrow.
  - now rewrite length_insert.
Qed.

(** Edits of two different existing cells give the same dataset in either
    order. *)
Theorem edits_commute (ds : Dataset) r1 c1 v1 r2 c2 v2 old1 old2 :
  cell ds r1 c1 = Some old1 -> cell ds r2 c2 = Some old2 ->
  (r1, c1) <> (r2, c2) ->
  exists ds1 ds2 both,
    editCell r1 c1 v1 ds = Edited ds1 /\ editCell r2 c2 v2 ds1 = Edited both
    /\ editCell r2 c2 v2 ds = Edited ds2 /\ editCell r1 c1 v1 ds2 = Edited both.
Proof.
  intros H1 H2 Hne.
  apply cell_inv in H1 as (row1 & Hrow1 & Hold1).
  apply cell_inv in H2 as (row2 & Hrow2 & Hold2).
  pose proof (lookup_lt_Some _ _ _ Hold1) as Hc1.
  pose proof (lookup_lt_Some _ _ _ Hold2) as Hc2.
  destruct (editCell_at r1 c1 v1 ds row1 Hrow1 Hc1) as (E1 & L1 & K1).
  destruct (editCell_at r2 c2 v2 ds row2 Hrow2 Hc2) as (E2 & L2 & K2).
  destruct (decide (r1 = r2)) as [->|Hr].
  - assert (row2 = row1) as -> by congruence.
    assert (c1 <> c2) by congruence.
    exists (<[r2 := <[c1 := v1]> row1]> ds), (<[r2 := <[c2 := v2]> row1]> ds),
           (<[r2 := <[c2 := v2]> (<[c1 := v1]> row1)]> ds).
    split; [exact E1|]. split.
    { rewrite (editCell_in_range r2 c2 v2 _ _ L1) by now rewrite length_insert.
      now rewrite list_insert_insert_eq. }
    split; [exact E2|].
    rewrite (editCell_in_range r2 c1 v1 _ _ L2) by now rewrite length_insert.
    rewrite list_insert_insert_eq. f_equal. f_equal.
    now apply list_insert_insert_ne.
  - exists (<[r1 := <[c1 := v1]> row1]> ds), (<[r2 := <[c2 := v2]> row2]> ds),
           (<[r2 := <[c2 := v2]> row2]> (<[r1 := <[c1 := v1]> row1]> ds)).
    split; [exact E1|]. split.
    { apply editCell_in_range; [|assumption].
      now rewrite list_lookup_insert_ne by assumption. }
    split; [exact E2|].
    rewrite (editCell_in_range r1 c1 v1 _ row1) by
      (assumption || now rewrite list_lookup_insert_ne by congruence).
    f_equal. now apply list_insert_insert_ne.
Qed.

Lemma edits_commute_witness :
  exists ds1 ds2 both,
    editCell 1 1 "Ada O." [headers; row_A] = Edited ds1
    /\ editCell 1 4 "Ogun" ds1 = Edited both
    /\ editCell 1 4 "Ogun" [headers; row_A] = Edited ds2
    /\ editCell 1 1 "Ada O." ds2 = Edited both.
Proof.
  apply (edits_commute [headers; row_A] 1 1 "Ada O." 1 4 "Ogun" "Ada" "Lagos").
  - reflexivity.
  - reflexivity.
  - discriminate.
Defined.

(** Of two edits of the same existing cell the later one decides, and
    writing the old value back restores the dataset. *)
Theorem edit_overwrites_and_undoes (ds : Dataset) r c v old :
  cell ds r c = Some old ->
  exists ds1,
    editCell r c v ds = Edited ds1
    /\ (forall v', editCell r c v' ds1 = editCell r c v' ds)
    /\ editCell r c old ds1 = Edited ds.
Proof.
  intros H. apply cell_inv in H as (row & Hrow & Hold).
  pose proof (lookup_lt_Some _ _ _ Hold) as Hc.
  destruct (editCell_at r c v ds row Hrow Hc) as (E1 & L1 & K1).
  exists (<[r := <[c := v]> row]> ds). split; [exact E1|].
  assert (Hagain : forall v', editCell r c v' (<[r := <[c := v]> row]> ds)
                              = editCell r c v' ds).
  { intros v'. rewrite (editCell_in_range r c v' _ _ L1 K1).
    rewrite (editCell_in_range r c v' ds row Hrow Hc).
    now rewrite !list_insert_insert_eq. }
  split; [exact Hagain|].
  rewrite Hagain, (editCell_in_range r c old ds row Hrow Hc).
  f_equal. rewrite (list_insert_id row c old Hold). now apply list_insert_id.
Qed.

Lemma edit_overwrites_and_undoes_witness :
  exists ds1,
    editCell 1 1 "Ada O." [headers; row_A] = Edited ds1
    /\ (forall v', editCell 1 1 v' ds1 = editCell 1 1 v' [headers; row_A])
    /\ editCell 1 1 "Ada" ds1 = Edited [headers; row_A].
Proof.
  apply (edit_overwrites_and_undoes [headers; row_A] 1 1 "Ada O." "Ada").
  reflexivity.
Defined.

(** An edit of an existing cell and a later merge do not interfere: the
    merge appends after the edited rows, so either order gives the same
    dataset. *)
Theorem edit_then_merge (ds : Dataset) r c v old rows :
  cell ds r c = Some old ->
  exists ds',
    editCell r c v ds = Edited ds'
    /\ editCell r c v (merge rows ds) = Edited (merge rows ds').
Proof.
  intros H. apply cell_inv in H as (row & Hrow & Hold).
  pose proof (lookup_lt_Some _ _ _ Hold) as Hc.
  pose proof (lookup_lt_Some _ _ _ Hrow) as Hr.
  exists (<[r := <[c := v]> row]> ds).
  split; [now apply editCell_in_range|].
  assert (Hne : ds <> []) by (intros ->; simpl in Hr; lia).
  assert (Hne' : <[r := <[c := v]> row]> ds <> []).
  { intros E. apply (f_equal length) in E. rewrite length_insert in E.
    simpl in E. lia. }
  rewrite !merge_nonempty by assumption.
  rewrite (editCell_in_range r c v _ row) by
    (assumption || now rewrite lookup_app_l by assumption).
  f_equal. now apply insert_app_l.
Qed.

Lemma edit_then_merge_witness :
  exists ds',
    editCell 1 1 "Ada O." [headers; row_A] = Edited ds'
    /\ editCell 1 1 "Ada O." (merge [headers; row_B] [headers; row_A])
       = Edited (merge [headers; row_B] ds').
Proof.
  apply (edit_then_merge [headers; row_A] 1 1 "Ada O." "Ada" [headers; row_B]).
  reflexivity.
Defined.

(** ** The transport on any network *)

Section TransportOnAnyNetwork.

Variable net : nat -> FetchOutcome.
Variable image : File.

Implicit Types (w : World) (r : Response) (resp : option Response).

(** A failed attempt before the fifth, of whatever kind, is followed by
    the backoff delay and one more iteration. *)
Lemma retry_loop_failed fuel retries resp w :
  retries < maxRetries - 1 -> failed (net (calls w)) = true ->
  exists resp',
    retry_loop net (S fuel) image retries resp w
    = retry_loop net fuel image (S retries) resp'
        (attempted image [EvWait (backoff retries)] w).
Proof.
  intros Hlt Hf. assert (Hlt' : retries < maxRetries) by lia.
  destruct (net (calls w)) as [r|msg] eqn:Hnet; simpl in Hf.
  - apply negb_true_iff in Hf.
    destruct (Z.eq_dec (status r) 429%Z) as [Hst|Hst].
    + exists (Some r). now apply retry_loop_throttled.
    + exists (Some r). now apply retry_loop_caught_status.
  - exists resp. now apply (retry_loop_caught_fault net image _ _ _ _ msg).
Qed.

Lemma attempted_attempted evs1 evs2 w :
  attempted image evs2 (attempted image evs1 w)
  = {| app := app w; calls := S (S (calls w));
       log := (log w ++ EvFetch image :: evs1 ++ EvFetch image :: evs2)%list |}.
Proof. unfold attempted. simpl. now rewrite <- app_assoc. Qed.

(** [k] failed attempts from iteration [retries] on, all before the
    fifth. *)
Lemma retry_loop_failures k : forall fuel retries resp w,
  retries + k <= maxRetries - 1 ->
  (forall j, j < k -> failed (net (calls w + j)) = true) ->
  exists resp',
    retry_loop net (k + fuel) image retries resp w
    = retry_loop net fuel image (retries + k) resp'
        {| app := app w; calls := calls w + k;
           log := (log w ++ attempts_log image retries k)%list |}.
Proof.
  induction k as [|k IH]; intros fuel retries resp w Hle Hfail.
  - exists resp. simpl. rewrite !Nat.add_0_r, app_nil_r. now destruct w.
  - destruct (retry_loop_failed (k + fuel) retries resp w) as (resp1 & E1).
    { lia. }
    { rewrite <- (Nat.add_0_r (calls w)). apply Hfail. lia. }
    destruct (IH fuel (S retries) resp1 (attempted image [EvWait (backoff retries)] w))
      as (resp2 & E2).
    { lia. }
    { intros j Hj. simpl. replace (S (calls w + j)) with (calls w + S j) by lia.
      apply Hfail. lia. }
    exists resp2. simpl Nat.add at 1. rewrite E1, E2. f_equal.
    + lia.
    + unfold attempted. simpl. f_equal; [lia|]. now rewrite <- app_assoc.
Qed.

Lemma send_first_success w k r :
  k < maxRetries ->
  (forall j, j < k -> failed (net (calls w + j)) = true) ->
  net (calls w + k) = Resolved r -> ok r = true ->
  send net image w
  = (Done r,
     {| app := app w; calls := calls w + S k;
        log := (log w ++ attempts_log image 0 k ++ [EvFetch image])%list |}).
Proof.
  intros Hk Hfail Hnet Hok. unfold send, bind.
  destruct (retry_loop_failures k (maxRetries - k) 0 None w) as (resp' & E);
    [lia | exact Hfail |].
  replace (k + (maxRetries - k)) with maxRetries in E by lia. rewrite E.
  replace (maxRetries - k) with (S (maxRetries - S k)) by lia.
  rewrite (retry_loop_ok net image _ _ _ _ r) by (simpl; lia || assumption).
  rewrite Hok. unfold ret, attempted. simpl. f_equal. f_equal; [lia|].
  now rewrite <- app_assoc.
Qed.

Lemma send_all_failed w :
  (forall j, j < maxRetries -> failed (net (calls w + j)) = true) ->
  send net image w
  = (Throw (final_error (net (calls w + 4))),
     {| app := app w; calls := calls w + 5;
        log := (log w ++ attempts_log image 0 4
                ++ EvFetch image :: final_wait (net (calls w + 4)))%list |}).
Proof.
  intros Hfail. unfold send, bind.
  destruct (retry_loop_failures 4 1 0 None w) as (resp' & E);
    [unfold maxRetries; lia | intros j Hj; apply Hfail; unfold maxRetries; lia |].
  change (4 + 1) with maxRetries in E. rewrite E. clear E.
  set (w4 := {| app := app w; calls := calls w + 4;
                log := (log w ++ attempts_log image 0 4)%list |}).
  assert (Hf : failed (net (calls w4)) = true)
    by (apply Hfail; unfold maxRetries; lia).
  change (calls w + 4) with (calls w4).
  change (0 + 4) with (maxRetries - 1).
  destruct (net (calls w4)) as [r|msg] eqn:Hnet; simpl in Hf.
  - apply negb_true_iff in Hf. simpl final_error. simpl final_wait.
    destruct (Z.eqb_spec (status r) 429) as [Hst|Hst].
    + rewrite (retry_loop_throttled net image _ _ _ _ r)
        by (assumption || unfold maxRetries; lia).
      rewrite retry_loop_exit by (unfold maxRetries; lia).
      unfold ret. rewrite Hf. unfold throw, attempted, w4. simpl.
      f_equal. f_equal; [lia|]. now rewrite <- app_assoc.
    + rewrite (retry_loop_last_status net image _ _ _ r) by assumption.
      unfold attempted, w4. simpl. f_equal. f_equal; [lia|].
      now rewrite <- app_assoc.
  - rewrite (retry_loop_last_fault net image _ _ _ msg) by assumption.
    unfold attempted, w4. simpl. f_equal. f_equal; [lia|].
    now rewrite <- app_assoc.
Qed.

End TransportOnAnyNetwork.

(** A request whose first [k] attempts fail in any way (k at most 4) and
    whose next attempt is answered with a success status makes [k + 1] calls,
    waits 1000, 2000, ... ms after the failed ones, and returns the last
    response. *)
Theorem send_succeeds_after_failures net image w k r :
  k < maxRetries ->
  (forall j, j < k -> failed (net (calls w + j)) = true) ->
  net (calls w + k) = Resolved r -> ok r = true ->
  send net image w
  = (Done r,
     {| app := app w; calls := calls w + S k;
        log := (log w ++ attempts_log image 0 k ++ [EvFetch image])%list |}).
Proof. apply send_first_success. Qed.

(** A request whose five attempts all fail makes exactly five calls, with
    waits of 1000, 2000, 4000 and 8000 ms in between; what is thrown depends
    on the fifth answer alone: a 429 is followed by a wait of 16000 ms and
    the "multiple retries" error, another status gives the status error, a
    rejected [fetch] is rethrown. *)
Theorem send_gives_up_after_five net image w :
  (forall j, j < maxRetries -> failed (net (calls w + j)) = true) ->
  send net image w
  = (Throw (final_error (net (calls w + 4))),
     {| app := app w; calls := calls w + 5;
        log := (log w ++ attempts_log image 0 4
                ++ EvFetch image :: final_wait (net (calls w + 4)))%list |}).
Proof. apply send_all_failed. Qed.

Lemma first_success (f : nat -> FetchOutcome) n :
  (forall j, j < n -> failed (f j) = true)
  \/ exists k r, k < n /\ (forall j, j < k -> failed (f j) = true)
                /\ f k = Resolved r /\ ok r = true.
Proof.
  induction n as [|n [IH|(k & r & Hk & Hfail & Hr & Hok)]].
  - left. intros j Hj. lia.
  - destruct (failed (f n)) eqn:E.
    + left. intros j Hj. destruct (decide (j = n)) as [->|]; [exact E|].
      apply IH. lia.
    + right. destruct (f n) as [r|msg] eqn:Hr; [|discriminate].
      exists n, r. simpl in E. apply negb_false_iff in E. auto.
  - right. exists k, r. auto.
Qed.

Lemma fetches_app evs1 evs2 : fetches (evs1 ++ evs2) = fetches evs1 + fetches evs2.
Proof. induction evs1 as [|[?|?] evs1 IH]; simpl; lia. Qed.

Lemma waited_app evs1 evs2 : waited (evs1 ++ evs2) = (waited evs1 + waited evs2)%Z.
Proof. induction evs1 as [|[?|?] evs1 IH]; simpl; lia. Qed.

Lemma fetches_attempts_log image k : forall j, fetches (attempts_log image j k) = k.
Proof. induction k as [|k IH]; intros j; simpl; [reflexivity | now rewrite IH]. Qed.

Lemma waited_attempts_log image k :
  k <= 4 -> (0 <= waited (attempts_log image 0 k) <= 15000)%Z.
Proof.
  intros Hk.
  destruct k as [|[|[|[|[|k]]]]]; [| | | | |lia]; vm_compute; split; discriminate.
Qed.

Lemma waited_final_wait o : (0 <= waited (final_wait o) <= 16000)%Z.
Proof.
  destruct o as [r|msg]; simpl; [|lia].
  destruct (status r =? 429)%Z; vm_compute; split; discriminate.
Qed.

Lemma fetches_final_wait o : fetches (final_wait o) = 0.
Proof.
  destruct o as [r|msg]; simpl; [|reflexivity]. now destruct (status r =? 429)%Z.
Qed.

Lemma send_limits net image w :
  calls w < calls (send net image w).2 <= calls w + 5
  /\ (exists evs,
        log (send net image w).2 = (log w ++ evs)%list
        /\ fetches evs = calls (send net image w).2 - calls w
        /\ (0 <= waited evs <= 31000)%Z)
  /\ (forall e, (send net image w).1 = Throw e ->
        calls (send net image w).2 = calls w + 5)
  /\ (forall r, (send net image w).1 = Done r ->
        ok r = true /\ net (pred (calls (send net image w).2)) = Resolved r).
Proof.
  destruct (first_success (fun j => net (calls w + j)) maxRetries)
    as [Hall | (k & r & Hk & Hfail & Hr & Hok)].
  - rewrite (send_all_failed net image w Hall).
    cbn [fst snd calls log app].
    split; [lia|]. split; [|split; [intros; lia | discriminate]].
    eexists. split; [reflexivity|].
    pose proof (waited_final_wait (net (calls w + 4))) as Hw.
    pose proof (waited_attempts_log image 4) as Hw4.
    rewrite fetches_app, waited_app, fetches_attempts_log.
    cbn [fetches waited]. rewrite fetches_final_wait. lia.
  - rewrite (send_first_success net image w k r Hk Hfail Hr Hok).
    unfold maxRetries in Hk. cbn [fst snd calls log app].
    split; [lia|]. split; [|split; [discriminate|]].
    + eexists. split; [reflexivity|].
      pose proof (waited_attempts_log image k) as Hw.
      rewrite fetches_app, waited_app, fetches_attempts_log.
      cbn [fetches waited]. lia.
    + intros r' [= <-]. split; [exact Hok|].
      replace (pred (calls w + S k)) with (calls w + k) by lia. exact Hr.
Qed.

(** On any network the transport makes at least one and at most five
    calls and waits at most 31 seconds in all; an exception means that five
    calls were made; a returned response has a success status and is the
    answer to the last call made. *)
Theorem send_bounds net image w :
  calls w < calls (send net image w).2 <= calls w + 5
  /\ (exists evs,
        log (send net image w).2 = (log w ++ evs)%list
        /\ fetches evs = calls (send net image w).2 - calls w
        /\ (0 <= waited evs <= 31000)%Z)
  /\ (forall e, (send net image w).1 = Throw e ->
        calls (send net image w).2 = calls w + 5)
  /\ (forall r, (send net image w).1 = Done r ->
        ok r = true /\ net (pred (calls (send net image w).2)) = Resolved r).
Proof. apply send_limits. Qed.

Lemma send_succeeds_after_failures_witness :
  send net_mixed_then_answer label1 (fresh [label1])
  = (Done {| status := 200;
             body := Some {| candidates :=
               Some [ {| content := Some {| parts := Some [ {| text := Some answer_AB |} ] |} |} ] |} |},
     {| app := app (fresh [label1]); calls := calls (fresh [label1]) + 4;
        log := (log (fresh [label1])
                ++ attempts_log label1 0 3 ++ [EvFetch label1])%list |}).
Proof.
  apply (send_succeeds_after_failures net_mixed_then_answer label1 (fresh [label1]) 3).
  - unfold maxRetries. lia.
  - intros j Hj. destruct j as [|[|[|j]]]; [reflexivity | reflexivity | reflexivity | lia].
  - reflexivity.
  - reflexivity.
Defined.

Lemma send_gives_up_after_five_witness :
  send (net_always (failure 503)) label1 (fresh [label1])
  = (Throw (final_error (net_always (failure 503) (calls (fresh [label1]) + 4))),
     {| app := app (fresh [label1]); calls := calls (fresh [label1]) + 5;
        log := (log (fresh [label1]) ++ attempts_log label1 0 4
                ++ EvFetch label1
                   :: final_wait (net_always (failure 503)
                                    (calls (fresh [label1]) + 4)))%list |}).
Proof.
  apply (send_gives_up_after_five (net_always (failure 503)) label1 (fresh [label1])).
  intros j _. reflexivity.
Defined.

(** ** The batch on any network *)

Lemma merge_prefix rows (ds : Dataset) : ds `prefix_of` merge rows ds.
Proof.
  destruct ds as [|row ds]; [apply prefix_nil|].
  rewrite merge_nonempty by discriminate. now apply prefix_app_r.
Qed.

Lemma with_app_same w : with_app (app w) w = w.
Proof. now destruct w. Qed.

Section BatchOnAnyNetwork.

Variable net : nat -> FetchOutcome.

Implicit Types (w : World) (image : File) (files : list File).

(** The callback either throws in the world the transport left, or
    completes after absorbing the answer into the component state. *)
Lemma onloadend_cases image w :
  (exists e, onloadend net image w = (Throw e, (send net image w).2))
  \/ exists a, onloadend net image w
               = (Done tt, with_app (absorb (app w) a) (send net image w).2).
Proof.
  pose proof (send_settles net image w) as Hs.
  destruct (send net image w) as [o w1] eqn:E. simpl in *.
  destruct Hs as [(r & -> & Hok) | (e & ->)].
  2:{ left. exists e. now apply onloadend_send_throws. }
  destruct (body r) as [result|] eqn:Hb.
  2:{ left. exists BodyError. unfold onloadend, bind, json. now rewrite E, Hb. }
  destruct (usable result) as [p0|] eqn:Hu.
  2:{ right. exists None. now apply (onloadend_empty net image w r result). }
  destruct (text p0) as [raw|] eqn:Ht.
  - right. exists (Some raw). now apply (onloadend_merges net image w r result p0).
  - left. exists UndefinedText. unfold onloadend, bind, json.
    rewrite E, Hb. unfold ret. now rewrite Hu, Ht.
Qed.

(** A relation between worlds that every callback run respects is
    respected by the loop. *)
Lemma for_images_respects (R : World -> World -> Prop) :
  (forall w, R w w) ->
  (forall w1 w2 w3, R w1 w2 -> R w2 w3 -> R w1 w3) ->
  (forall image w, R w (onloadend net image w).2) ->
  forall files w, R w (for_images net files w).2.
Proof.
  intros Hrefl Htrans Hstep. induction files as [|image rest IH]; intros w.
  - apply Hrefl.
  - simpl. unfold bind, await_reader. specialize (Hstep image w).
    destruct (onloadend net image w) as [[[]| | |] w1]; simpl in *;
      try exact Hstep.
    exact (Htrans _ _ _ Hstep (IH w1)).
Qed.

Lemma absorb_frame s a :
  imageFiles (absorb s a) = imageFiles s
  /\ loading (absorb s a) = loading s
  /\ allExtracted s `prefix_of` allExtracted (absorb s a).
Proof.
  destruct a as [raw|]; simpl; repeat split; try reflexivity.
  apply merge_prefix.
Qed.

Lemma onloadend_frame image w :
  imageFiles (app (onloadend net image w).2) = imageFiles (app w)
  /\ loading (app (onloadend net image w).2) = loading (app w)
  /\ allExtracted (app w) `prefix_of` allExtracted (app (onloadend net image w).2)
  /\ calls (onloadend net image w).2 = calls (send net image w).2
  /\ log (onloadend net image w).2 = log (send net image w).2.
Proof.
  pose proof (send_frame net image w) as [Happ _].
  destruct (onloadend_cases image w) as [(e & ->) | (a & ->)]; simpl.
  - rewrite Happ. repeat split; reflexivity.
  - destruct (absorb_frame (app w) a) as (H1 & H2 & H3). repeat split; assumption.
Qed.

Lemma for_images_frame files w :
  imageFiles (app (for_images net files w).2) = imageFiles (app w)
  /\ loading (app (for_images net files w).2) = loading (app w)
  /\ allExtracted (app w) `prefix_of` allExtracted (app (for_images net files w).2).
Proof.
  apply (for_images_respects
           (fun w w' => imageFiles (app w') = imageFiles (app w)
                        /\ loading (app w') = loading (app w)
                        /\ allExtracted (app w) `prefix_of` allExtracted (app w'))).
  - intros w0. repeat split; reflexivity.
  - intros w1 w2 w3 (A1 & A2 & A3) (B1 & B2 & B3).
    repeat split; [congruence | congruence | now transitivity (allExtracted (app w2))].
  - intros image w0. destruct (onloadend_frame image w0) as (H1 & H2 & H3 & _).
    repeat split; assumption.
Qed.

Lemma for_images_outcome files : forall w,
  (for_images net files w).1 = Done tt \/ (for_images net files w).1 = Pending.
Proof.
  induction files as [|image rest IH]; intros w; [now left|].
  simpl. unfold bind, await_reader.
  destruct (onloadend_cases image w) as [(e & ->) | (a & ->)]; [now right | apply IH].
Qed.

Lemma handleExtract_frame w :
  allExtracted (app w) `prefix_of` allExtracted (app (handleExtract net w).2)
  /\ imageFiles (app (handleExtract net w).2) = imageFiles (app w).
Proof.
  destruct (imageFiles (app w)) as [|f files] eqn:Hfiles.
  - unfold handleExtract, bind. simpl. rewrite Hfiles. simpl.
    split; [reflexivity | assumption].
  - rewrite handleExtract_batch by (rewrite Hfiles; discriminate).
    unfold bind.
    destruct (for_images_frame (imageFiles (app w)) (started w)) as (H1 & _ & H3).
    destruct (for_images net (imageFiles (app w)) (started w)) as [[[]| | |] w'];
      simpl in *; rewrite <- Hfiles; split; assumption.
Qed.

(** Whatever the network does, [handleExtract] never removes or reorders
    rows (the dataset before is a prefix of the dataset after) and never
    changes the selected images: the selection is still there for the next
    run. *)
Theorem handleExtract_keeps_rows_and_selection w :
  allExtracted (app w) `prefix_of` allExtracted (app (handleExtract net w).2)
  /\ imageFiles (app (handleExtract net w).2) = imageFiles (app w).
Proof. apply handleExtract_frame. Qed.

(** With at least one image selected, [handleExtract] either completes
    with the loading flag cleared, or stays suspended with the loading flag
    set; no exception leaves it. *)
Theorem handleExtract_completes_or_hangs w :
  imageFiles (app w) <> [] ->
  ((handleExtract net w).1 = Done tt
   /\ loading (app (handleExtract net w).2) = false)
  \/ ((handleExtract net w).1 = Pending
      /\ loading (app (handleExtract net w).2) = true).
Proof.
  intros Hne. rewrite handleExtract_batch by assumption. unfold bind.
  destruct (for_images_frame (imageFiles (app w)) (started w)) as (_ & H2 & _).
  destruct (for_images_outcome (imageFiles (app w)) (started w)) as [H|H];
    destruct (for_images net (imageFiles (app w)) (started w)) as [[[]| | |] w'];
    simpl in *; try discriminate; [left | right]; split; reflexivity || assumption.
Qed.


End BatchOnAnyNetwork.

Lemma handleExtract_completes_or_hangs_witness :
  ((handleExtract net_answer_then_throttled (fresh [label1; label2])).1 = Done tt
   /\ loading (app (handleExtract net_answer_then_throttled
                      (fresh [label1; label2])).2) = false)
  \/ ((handleExtract net_answer_then_throttled (fresh [label1; label2])).1 = Pending
      /\ loading (app (handleExtract net_answer_then_throttled
                         (fresh [label1; label2])).2) = true).
Proof.
  apply (handleExtract_completes_or_hangs net_answer_then_throttled
           (fresh [label1; label2])).
  discriminate.
Defined.


Section BatchTraces.

Variable net : nat -> FetchOutcome.

Implicit Types (w : World) (image : File) (files : list File).

Lemma send_segment image w :
  exists seg,
    log (send net image w).2 = (log w ++ seg)%list
    /\ segment_of image seg
    /\ calls (send net image w).2 = calls w + fetches seg.
Proof.
  destruct (send_frame net image w) as (_ & seg & Hlog & Hall).
  destruct (send_limits net image w) as (Hcalls & (seg' & Hlog' & Hf & _) & _).
  assert (seg' = seg) as -> by (rewrite Hlog in Hlog'; now apply app_inv_head in Hlog').
  exists seg. split; [exact Hlog|]. split; [split; [lia | exact Hall] | lia].
Qed.

Lemma for_images_segments files : forall w,
  exists segs,
    log (for_images net files w).2 = (log w ++ concat segs)%list
    /\ Forall2 segment_of (take (length segs) files) segs
    /\ calls (for_images net files w).2 = calls w + fetches (concat segs)
    /\ ((for_images net files w).1 = Done tt -> length segs = length files).
Proof.
  induction files as [|image rest IH]; intros w.
  - exists []. simpl. rewrite app_nil_r.
    split; [reflexivity|]. split; [constructor|]. split; [lia | reflexivity].
  - destruct (send_segment image w) as (seg & Hlog & Hseg & Hcalls).
    destruct (onloadend_frame net image w) as (_ & _ & _ & Hc & Hl).
    simpl. unfold bind, await_reader.
    destruct (onloadend_cases net image w) as [(e & E) | (a & E)];
      rewrite E in *; simpl in Hc, Hl.
    + exists [seg]. simpl. rewrite app_nil_r.
      split; [exact Hlog|]. split; [constructor; [exact Hseg | constructor]|].
      split; [lia | discriminate].
    + destruct (IH (with_app (absorb (app w) a) (send net image w).2))
        as (segs & Hlogs & Hsegs & Hcs & Hdone).
      exists (seg :: segs). simpl in *. rewrite Hlogs, Hcs, Hlog, Hcalls.
      rewrite fetches_app, <- app_assoc.
      split; [reflexivity|]. split; [constructor; assumption|].
      split; [lia | intros H; f_equal; auto].
Qed.

Lemma handleExtract_segments w :
  exists segs,
    log (handleExtract net w).2 = (log w ++ concat segs)%list
    /\ Forall2 segment_of (take (length segs) (imageFiles (app w))) segs
    /\ calls (handleExtract net w).2 = calls w + fetches (concat segs)
    /\ ((handleExtract net w).1 = Done tt ->
        length segs = length (imageFiles (app w))).
Proof.
  destruct (imageFiles (app w)) as [|f files] eqn:Hfiles.
  - exists []. unfold handleExtract, bind. simpl. rewrite Hfiles. simpl.
    rewrite app_nil_r.
    split; [reflexivity|]. split; [constructor|]. split; [lia | reflexivity].
  - rewrite handleExtract_batch by (rewrite Hfiles; discriminate).
    rewrite Hfiles. unfold bind.
    destruct (for_images_segments (f :: files) (started w))
      as (segs & Hlog & Hsegs & Hcalls & Hdone).
    exists segs.
    destruct (for_images net (f :: files) (started w)) as [[[]| | |] w'];
      simpl in *; (split; [exact Hlog|]; split; [exact Hsegs|];
                   split; [exact Hcalls|]); auto; discriminate.
Qed.

(** The images are requested strictly one after the other, in the order of
    the selection: the trace of [handleExtract] is a sequence of segments,
    one per image from the first on, each holding only requests for its own
    image (between one and five) and waits; when the run completes there is
    a segment for every image. *)
Theorem handleExtract_requests_in_order w :
  exists segs,
    log (handleExtract net w).2 = (log w ++ concat segs)%list
    /\ Forall2 segment_of (take (length segs) (imageFiles (app w))) segs
    /\ calls (handleExtract net w).2 = calls w + fetches (concat segs)
    /\ ((handleExtract net w).1 = Done tt ->
        length segs = length (imageFiles (app w))).
Proof. apply handleExtract_segments. Qed.

(** A run makes at most five requests per selected image, and one that
    completes has made at least one per image. *)
Theorem handleExtract_request_count w :
  calls w <= calls (handleExtract net w).2
          <= calls w + 5 * length (imageFiles (app w))
  /\ ((handleExtract net w).1 = Done tt ->
      calls w + length (imageFiles (app w)) <= calls (handleExtract net w).2).
Proof.
  destruct (handleExtract_segments w) as (segs & _ & Hsegs & Hcalls & Hdone).
  assert (Hlen : length segs <= length (imageFiles (app w))).
  { apply Forall2_length in Hsegs. rewrite length_take in Hsegs. lia. }
  assert (Hsum : length segs <= fetches (concat segs) <= 5 * length segs).
  { clear Hcalls Hdone Hlen. induction Hsegs as [|image seg files segs [Hf _] _ IH].
    - simpl. lia.
    - simpl. rewrite fetches_app. lia. }
  split; [lia|]. intros H. specialize (Hdone H). lia.
Qed.

End BatchTraces.

(** ** A batch answered at the first attempt *)

Section AnsweredBatch.

Variable net : nat -> FetchOutcome.

Implicit Types (w : World) (image : File) (files : list File).

Lemma onloadend_answered image w a :
  net (calls w) = answer a ->
  onloadend net image w
  = (Done tt, with_app (absorb (app w) a) (attempted image [] w)).
Proof.
  intros Hnet. destruct a as [raw|].
  - eapply onloadend_merges;
      [apply send_first_ok; [exact Hnet | reflexivity] | reflexivity ..].
  - eapply onloadend_empty;
      [apply send_first_ok; [exact Hnet | reflexivity] | reflexivity ..].
Qed.

Lemma for_images_answered files : forall answers w,
  length answers = length files ->
  (forall i a, answers !! i = Some a -> net (calls w + i) = answer a) ->
  for_images net files w
  = (Done tt,
     {| app := foldl absorb (app w) answers; calls := calls w + length files;
        log := (log w ++ (EvFetch <$> files))%list |}).
Proof.
  induction files as [|image rest IH]; intros answers w Hlen Hnet.
  - destruct answers; [|discriminate]. simpl.
    rewrite Nat.add_0_r, app_nil_r. now destruct w.
  - destruct answers as [|a answers]; [discriminate|].
    rewrite (for_images_next net image rest w _ (onloadend_answered image w a
               ltac:(rewrite <- (Nat.add_0_r (calls w)); now apply Hnet))).
    rewrite (IH answers).
    + simpl. f_equal. f_equal; [lia|]. now rewrite <- app_assoc.
    + simpl in Hlen. lia.
    + intros i a' Hi. simpl. replace (S (calls w + i)) with (calls w + S i) by lia.
      now apply Hnet.
Qed.

End AnsweredBatch.

Lemma absorb_all_error answers : forall s,
  error (foldl absorb s answers)
  = if existsb is_empty_answer answers then could_not_extract else error s.
Proof.
  induction answers as [|a answers IH]; intros s; [reflexivity|].
  simpl. rewrite IH. destruct a as [raw|]; simpl; [reflexivity|].
  now destruct (existsb is_empty_answer answers).
Qed.

Lemma absorb_all_rows answers : forall s,
  allExtracted (foldl absorb s answers)
  = merge_all ((fun raw => parse (Str.trim raw)) <$> omap id answers)
      (allExtracted s).
Proof.
  induction answers as [|a answers IH]; intros s; [reflexivity|].
  simpl. rewrite IH. now destruct a as [raw|].
Qed.

(** When every image of the batch is answered with a success status at its
    first attempt, with usable text or with no candidates, the run completes
    after one request per image. The dataset is the old one with the usable
    answers merged in order; the error is the per-image message when some
    answer was empty (a later usable answer does not clear it) and empty
    otherwise; the loading flag is cleared. *)
Theorem handleExtract_all_answered net w answers :
  imageFiles (app w) <> [] ->
  length answers = length (imageFiles (app w)) ->
  (forall i a, answers !! i = Some a -> net (calls w + i) = answer a) ->
  (handleExtract net w).1 = Done tt
  /\ allExtracted (app (handleExtract net w).2)
     = merge_all ((fun raw => parse (Str.trim raw)) <$> omap id answers)
         (allExtracted (app w))
  /\ error (app (handleExtract net w).2)
     = (if existsb is_empty_answer answers then could_not_extract else EmptyString)
  /\ loading (app (handleExtract net w).2) = false
  /\ calls (handleExtract net w).2 = calls w + length answers
  /\ log (handleExtract net w).2 = (log w ++ (EvFetch <$> imageFiles (app w)))%list.
Proof.
  intros Hne Hlen Hnet. rewrite handleExtract_batch by assumption.
  unfold bind. rewrite (for_images_answered net _ answers (started w) Hlen Hnet).
  simpl. rewrite absorb_all_error, absorb_all_rows, Hlen. simpl.
  repeat split; reflexivity.
Qed.

Lemma handleExtract_all_answered_witness :
  (handleExtract net_empty_then_answer (fresh [label1; label2])).1 = Done tt
  /\ allExtracted (app (handleExtract net_empty_then_answer (fresh [label1; label2])).2)
     = merge_all ((fun raw => parse (Str.trim raw)) <$> omap id [None; Some answer_CD])
         (allExtracted (app (fresh [label1; label2])))
  /\ error (app (handleExtract net_empty_then_answer (fresh [label1; label2])).2)
     = (if existsb is_empty_answer [None; Some answer_CD]
        then could_not_extract else EmptyString)
  /\ loading (app (handleExtract net_empty_then_answer (fresh [label1; label2])).2) = false
  /\ calls (handleExtract net_empty_then_answer (fresh [label1; label2])).2
     = calls (fresh [label1; label2]) + length [None; Some answer_CD]
  /\ log (handleExtract net_empty_then_answer (fresh [label1; label2])).2
     = (log (fresh [label1; label2])
        ++ (EvFetch <$> imageFiles (app (fresh [label1; label2]))))%list.
Proof.
  apply (handleExtract_all_answered net_empty_then_answer (fresh [label1; label2])
           [None; Some answer_CD]).
  - discriminate.
  - reflexivity.
  - intros i a H. destruct i as [|[|i]]; simpl in H.
    + injection H as <-. reflexivity.
    + injection H as <-. reflexivity.
    + discriminate.
Defined.

(** ** The rendered controls *)


(** Every input the table renders addresses a cell that exists and shows
    its trimmed content; [handleEditCell] called from it, with whatever text,
    yields a state: the type error and the sparse row cannot come from the
    table. *)
Theorem rendered_inputs_are_editable s inputs input v :
  inputs ∈ renderedInputs s -> input ∈ inputs ->
  exists old,
    cell (allExtracted s) (at_row input) (at_col input) = Some old
    /\ shown input = Str.trim old
    /\ is_Some (handleEditCell (at_row input) (at_col input) v s).
Proof.
  unfold renderedInputs. intros Hrow Hin.
  destruct (resultsVisible s); [|now apply elem_of_nil in Hrow].
  apply list_elem_of_lookup in Hrow as (r & Hr).
  rewrite list_lookup_imap in Hr.
  destruct (allExtracted s !! r) as [row|] eqn:Hrow; [|discriminate].
  injection Hr as <-.
  apply list_elem_of_lookup in Hin as (c & Hc).
  rewrite list_lookup_imap in Hc.
  destruct (row !! c) as [old|] eqn:Hold; [|discriminate].
  injection Hc as <-. simpl. exists old.
  split; [apply cell_inv; eauto|]. split; [reflexivity|].
  unfold handleEditCell.
  rewrite (editCell_in_range r c v _ row Hrow) by now apply lookup_lt_Some in Hold.
  eauto.
Qed.

Lemma rendered_inputs_are_editable_witness :
  exists old,
    cell (allExtracted (holding [headers; row_A])) 1 4 = Some old
    /\ shown {| shown := "Lagos"; at_row := 1; at_col := 4 |} = Str.trim old
    /\ is_Some (handleEditCell 1 4 "Ogun" (holding [headers; row_A])).
Proof.
  apply (rendered_inputs_are_editable (holding [headers; row_A])
           (imap (fun colIdx c => {| shown := Str.trim c; at_row := 1; at_col := colIdx |})
                 row_A)
           {| shown := "Lagos"; at_row := 1; at_col := 4 |} "Ogun").
  - vm_compute. apply list_elem_of_In. simpl. auto.
  - vm_compute. apply list_elem_of_In. simpl. auto 10.
Defined.




(** ** The two exports *)



(** ** Selecting images *)

Lemma captures_append caps : forall s,
  imageFiles (foldl pick s (Capture <$> caps))
  = (imageFiles s ++ concat (default [] <$> caps))%list.
Proof.
  induction caps as [|c caps IH]; intros s; simpl.
  - now rewrite app_nil_r.
  - rewrite IH. simpl. now rewrite <- app_assoc.
Qed.

Lemma pick_frame ps : forall s,
  allExtracted (foldl pick s ps) = allExtracted s
  /\ error (foldl pick s ps) = error s
  /\ loading (foldl pick s ps) = loading s
  /\ extractedData (foldl pick s ps) = extractedData s.
Proof.
  induction ps as [|p ps IH]; intros s; [repeat split|].
  simpl. destruct (IH (pick s p)) as (H1 & H2 & H3 & H4).
  rewrite H1, H2, H3, H4. now destruct p.
Qed.

(** The batch is what the last upload selected followed by every capture
    made after it, in order: an upload discards all earlier picks, a capture
    keeps them; picking touches nothing but the selection. *)
Theorem selection_is_last_upload_then_captures s before files caps :
  imageFiles (foldl pick s (before ++ Upload files :: (Capture <$> caps)))
  = (default [] files ++ concat (default [] <$> caps))%list
  /\ imageFiles (foldl pick s (Capture <$> caps))
     = (imageFiles s ++ concat (default [] <$> caps))%list
  /\ allExtracted (foldl pick s (before ++ Upload files :: (Capture <$> caps)))
     = allExtracted s.
Proof.
  split; [|split].
  - rewrite foldl_app. simpl. now rewrite captures_append.
  - apply captures_append.
  - apply pick_frame.
Qed.

(** ** Answers that cannot be read *)

(** An answer with a success status whose body is not JSON, or whose first
    part has no text, raises the exception inside the callback as a failed
    transport does: [handleExtract] stays suspended in the world the
    transport left, with nothing recorded and later images not requested. *)
Theorem unreadable_answer_hangs net w pre image post w1 r w2 :
  imageFiles (app w) = (pre ++ image :: post)%list ->
  for_images net pre (started w) = (Done tt, w1) ->
  send net image w1 = (Done r, w2) ->
  body r = None
  \/ (exists result p0,
        body r = Some result /\ usable result = Some p0 /\ text p0 = None) ->
  handleExtract net w = (Pending, w2)
  /\ app w2 = app w1.
Proof.
  intros Hfiles Hpre Hsend Hbad. split; [|now apply (send_app net image w1 (Done r))].
  rewrite handleExtract_batch by (rewrite Hfiles; now destruct pre).
  unfold bind. rewrite Hfiles, (for_images_app _ _ _ _ _ Hpre).
  destruct Hbad as [Hb | (result & p0 & Hb & Hu & Ht)].
  - rewrite (for_images_stuck net image post w1 BodyError w2); [reflexivity|].
    unfold onloadend, bind, json. now rewrite Hsend, Hb.
  - rewrite (for_images_stuck net image post w1 UndefinedText w2); [reflexivity|].
    unfold onloadend, bind, json. rewrite Hsend, Hb. unfold ret.
    now rewrite Hu, Ht.
Qed.

Lemma unreadable_answer_hangs_witness :
  handleExtract (net_always (Resolved {| status := 200; body := None |}))
    (fresh [label1; label2])
  = (Pending, attempted label1 [] (started (fresh [label1; label2])))
  /\ app (attempted label1 [] (started (fresh [label1; label2])))
     = app (started (fresh [label1; label2])).
Proof.
  apply (unreadable_answer_hangs
           (net_always (Resolved {| status := 200; body := None |}))
           (fresh [label1; label2]) [] label1 [label2]
           (started (fresh [label1; label2]))
           {| status := 200; body := None |}
           (attempted label1 [] (started (fresh [label1; label2])))).
  - reflexivity.
  - reflexivity.
  - reflexivity.
  - left. reflexivity.
Defined.

(** ** The dataset is never emptied *)




(** ** Further instances *)


Lemma send_bounds_witness :
  calls (send (net_always (failure 429)) label1 (fresh [label1])).2
  = calls (fresh [label1]) + 5.
Proof.
  destruct (send_bounds (net_always (failure 429)) label1 (fresh [label1]))
    as (_ & _ & Hthrow & _).
  apply (Hthrow RetriesError). reflexivity.
Defined.

Lemma handleExtract_requests_in_order_witness :
  exists segs,
    log (handleExtract net_two_answers (fresh [label1; label2])).2
    = (log (fresh [label1; label2]) ++ concat segs)%list
    /\ length segs = length (imageFiles (app (fresh [label1; label2]))).
Proof.
  destruct (handleExtract_requests_in_order net_two_answers (fresh [label1; label2]))
    as (segs & Hlog & _ & _ & Hdone).
  exists segs. split; [exact Hlog | apply Hdone; reflexivity].
Defined.

Lemma handleExtract_request_count_witness :
  calls (fresh [label1; label2])
  + length (imageFiles (app (fresh [label1; label2])))
  <= calls (handleExtract net_two_answers (fresh [label1; label2])).2.
Proof.
  destruct (handleExtract_request_count net_two_answers (fresh [label1; label2]))
    as [_ Hdone].
  apply Hdone. reflexivity.
Defined.
